(** * Anchor utilities of the deformable-object simulator (dedo/utils/anchor_utils.py)

    A shallow embedding of the anchor helpers: the nearest-cluster selector
    [get_closest], the anchor life cycle ([create_anchor], [create_anchor_geom],
    [attach_anchor], [release_anchor], [pin_fixed]) and the velocity controller
    [command_anchor_velocity].

    Numbers.  Mesh geometry (vertex positions, distances, means) is computed
    in IEEE binary64, as NumPy does: the primitive floats of the kernel,
    with their rounding, overflow and NaN.  A mesh is an ndarray of shape
    (N, 3), kept as a list of rows.  The all-NaN row NumPy returns for the
    mean of zero rows is the distinguished position [NaNs].  The velocity
    controller is kept in exact rational arithmetic. *)

From Stdlib Require Import QArith Qminmax Qabs Lia Lqa.
From Stdlib Require Import PrimFloat FloatOps SpecFloat FloatAxioms Uint63.
From stdpp Require Import base decidable option list sorting gmap.

Local Open Scope nat_scope.

(** ** Python exceptions and fallible results *)

Inductive exn : Type :=
  | ValueError    (* raised by np.argpartition: kth out of bounds *)
  | IndexError    (* raised by out-of-range indexing *)
  | SimError.     (* pybullet.error raised by the physics backend *)

Inductive result (A : Type) : Type :=
  | Ok (a : A)
  | Raise (e : exn).
Arguments Ok {A} a.
Arguments Raise {A} e.

#[global] Instance result_ret : MRet result := fun _ a => Ok a.
#[global] Instance result_bind : MBind result := fun _ _ f m =>
  match m with
  | Ok a => f a
  | Raise e => Raise e
  end.

Definition of_option {A : Type} (e : exn) (o : option A) : result A :=
  match o with
  | Some a => Ok a
  | None => Raise e
  end.

(** ** Velocities and forces (exact) *)

Record vec3 : Type := V3 { vx : Q; vy : Q; vz : Q }.

Definition vsub (a b : vec3) : vec3 :=
  V3 (vx a - vx b) (vy a - vy b) (vz a - vz b).

Definition vscale (c : Q) (a : vec3) : vec3 :=
  V3 (c * vx a) (c * vy a) (c * vz a).

#[global] Instance vec3_inhabited : Inhabited vec3 := populate (V3 0 0 0).

#[global] Instance Qle_dec (x y : Q) : Decision (x <= y)%Q :=
  decide (Qnum x * QDen y ≤ Qnum y * QDen x)%Z.

#[global] Instance Qlt_dec (x y : Q) : Decision (x < y)%Q :=
  decide (Qnum x * QDen y < Qnum y * QDen x)%Z.

(** ** Points, positions and distances (binary64) *)

Record point : Type := P3 { px : float; py : float; pz : float }.

#[global] Instance float_inhabited : Inhabited float := populate 0%float.
#[global] Instance point_inhabited : Inhabited point := populate (P3 0 0 0).

(** What [mean(axis=0)] can return: a row of three doubles, or the all-NaN
    row NumPy produces for the mean of zero rows. *)
Inductive position : Type :=
  | At (p : point)
  | NaNs.

Definition psub (a b : point) : point :=
  P3 (px a - px b) (py a - py b) (pz a - pz b).

Definition padd (a b : point) : point :=
  P3 (px a + px b) (py a + py b) (pz a + pz b).

Definition is_nan (x : float) : bool := negb (x =? x)%float.

(** The order NumPy sorts and partitions by: the usual [<] on doubles, with
    NaN after everything else. *)
Definition np_lt (a b : float) : bool :=
  (a <? b)%float || (is_nan b && negb (is_nan a)).

Definition np_le (a b : float) : bool := negb (np_lt b a).

(** The place of a double in that order, as a triple of integers compared
    lexicographically: -inf, the negative numbers, the zeros, the positive
    numbers, +inf, and NaN last. *)
Definition sort_key (x : spec_float) : Z * Z * Z :=
  match x with
  | S754_nan => (3, 0, 0)
  | S754_infinity false => (2, 0, 0)
  | S754_infinity true => (-2, 0, 0)
  | S754_zero _ => (0, 0, 0)
  | S754_finite false m e => (1, e, Z.pos m)
  | S754_finite true m e => (-1, - e, Z.neg m)
  end%Z.

Definition key_lt (a b : Z * Z * Z) : bool :=
  let '(a1, a2, a3) := a in
  let '(b1, b2, b3) := b in
  ((a1 <? b1) || ((a1 =? b1) && ((a2 <? b2) || ((a2 =? b2) && (a3 <? b3)))))%Z.

(** np.linalg.norm of one row: the square root of the sum, from left to
    right, of the squared components. *)
Definition linalg_norm (v : point) : float :=
  PrimFloat.sqrt (px v * px v + py v * py v + pz v * pz v)%float.

(** The conversion of a row count to a double. *)
Definition float_of_nat (n : nat) : float :=
  PrimFloat.of_uint63 (Uint63.of_Z (Z.of_nat n)).

(** ** NumPy primitives used by the selector *)

(** [mesh[idx]] with an integer index array: every index must be in range. *)
Fixpoint take_rows (mesh : list point) (idx : list nat) : result (list point) :=
  match idx with
  | [] => Ok []
  | i :: idx' =>
      p ← of_option IndexError (mesh !! i);
      rows ← take_rows mesh idx';
      mret (p :: rows)
  end.

(** [rows.mean(axis=0)]: the rows are added one after the other, starting
    from the first, and the sums are divided by the number of rows; zero
    rows give the all-NaN row (with a warning, not an exception). *)
Definition mean_axis0 (rows : list point) : position :=
  match rows with
  | [] => NaNs
  | p :: rows' =>
      let s := foldl padd p rows' in
      let n := float_of_nat (length rows) in
      At (P3 (px s / n) (py s / n) (pz s / n))
  end.

(** np.argpartition is specified by its contract: the result is a
    permutation of the indices in which the entry at position [kth] is in
    its sorted place, everything before it is no larger and everything
    after it is no smaller.  Order inside the two parts, and so the way ties
    are broken, is left open. *)
Class ArgPartition : Type := {
  argpartition : list float → nat → list nat;
  argpartition_perm d kth :
    kth < length d → argpartition d kth ≡ₚ seq 0 (length d);
  argpartition_before d kth i :
    kth < length d → i < kth →
    np_le (d !!! (argpartition d kth !!! i))
          (d !!! (argpartition d kth !!! kth)) = true;
  argpartition_after d kth j :
    kth < j → j < length d →
    np_le (d !!! (argpartition d kth !!! kth))
          (d !!! (argpartition d kth !!! j)) = true
}.

(** The bounds check NumPy performs before partitioning: on a non-empty
    array [kth] must be a valid position, an empty array passes. *)
Definition np_argpartition `{ArgPartition} (a : list float) (kth : nat)
  : result (list nat) :=
  if decide (length a = 0) then Ok []
  else if decide (kth < length a) then Ok (argpartition a kth)
  else Raise ValueError.

(** ** get_closest *)

Definition num_to_pin (n : nat) : nat :=
  let num_pins_per_pt := Nat.max 1 (n / 50) in
  Nat.min n num_pins_per_pt.

Definition dists_to (init_pos : point) (mesh : list point) : list float :=
  (λ p, linalg_norm (psub p init_pos)) <$> mesh.

(** [mesh] is the array [np.array(mesh)], of shape (N, 3), and [init_pos]
    one row of three doubles; [max_dist] is [None] or a double.  A mesh
    without rows is the array of shape (0, 3).  (A Python empty list gives
    shape (0,), on which the subtraction raises; it is not a value of this
    type.) *)
Definition get_closest `{ArgPartition}
    (init_pos : point) (mesh : list point) (max_dist : option float)
  : result (position * list nat) :=
  let dists := dists_to init_pos mesh in
  part ← np_argpartition dists (num_to_pin (length mesh));
  let anchor_vertices := take (num_to_pin (length mesh)) part in
  let anchor_vertices :=
    match max_dist with
    | Some m => filter (λ v, (dists !!! v <=? m)%float = true) anchor_vertices
    | None => anchor_vertices
    end in
  rows ← take_rows mesh anchor_vertices;
  mret (mean_axis0 rows, anchor_vertices).

(** [np_le] as a relation on indices, through an array. *)
Definition by_dist (d : list float) : relation nat :=
  λ i j, np_le (d !!! i) (d !!! j) = true.

#[global] Instance by_dist_dec d : RelDecision (by_dist d).
Proof. intros i j. unfold by_dist. apply _. Defined.

(** One admissible np.argpartition: a full sort of the indices by distance
    (a sorted array satisfies the partition contract for every [kth]). *)
Definition argsort (d : list float) : list nat :=
  merge_sort (by_dist d) (seq 0 (length d)).


(** The exact value of a finite double, as a rational. *)
Definition exact (x : float) : option Q :=
  match Prim2SF x with
  | S754_zero _ => Some 0%Q
  | S754_finite s m e =>
      Some (inject_Z (if s then Z.neg m else Z.pos m) * 2 ^ e)%Q
  | _ => None
  end.

(** The exact squared Euclidean distance between two points with finite
    coordinates. *)
Definition exact_sqdist (a b : point) : option Q :=
  dx ← exact (px a); dy ← exact (py a); dz ← exact (pz a);
  ex ← exact (px b); ey ← exact (py b); ez ← exact (pz b);
  Some ((dx - ex) * (dx - ex) + (dy - ey) * (dy - ey)
        + (dz - ez) * (dz - ez))%Q.

(** ** Module constants *)

Definition rgba : Type := (Q * Q * Q * Q)%type.

Definition ANCHOR_MIN_DIST : Q := 2 # 100.
Definition ANCHOR_MASS : Q := 100 # 1000.
Definition ANCHOR_RADIUS : Q := 7 # 1000.
Definition ANCHOR_RGBA_ACTIVE : rgba := (1, 0, 1, 1)%Q.
Definition ANCHOR_RGBA_INACTIVE : rgba := (1 # 2, 1 # 2, 1 # 2, 1)%Q.
Definition ANCHOR_RGBA_PEACH : rgba := (9 # 10, 75 # 100, 65 # 100, 1)%Q.
Definition CTRL_MAX_FORCE : Q := 10.
Definition CTRL_PD_KD : Q := 50.

(** ** The physics backend

    The simulator handle [sim] is a PyBullet client; the primitives below
    follow the simulator interface listed in section 6 of the specification
    (shape and body creation, velocity and mesh queries, creation of a point
    constraint between a mesh vertex and a rigid body, removal of a
    constraint by id, force application, colour change).  The state is kept
    as the tables the anchor helpers can observe: shapes, rigid bodies,
    deformable meshes, soft-body anchor constraints keyed by their
    constraint unique id, and the external forces requested for the current
    step.  Unique ids are handed out by per-table counters; rigid bodies and
    constraints are numbered independently of each other.  A primitive
    whose answer the helpers consume raises on an unknown handle; the
    others record the request. *)

Inductive geom : Type := GEOM_SPHERE.
Inductive frame : Type := LINK_FRAME | WORLD_FRAME.

Record body : Type := Body {
  b_mass : Q;
  b_pos : position;
  b_collision : Z;       (* collision shape index, -1 for none *)
  b_visual : Z;          (* visual shape index *)
  b_rgba : rgba;         (* colour of the base link *)
  b_linvel : vec3;
  b_angvel : vec3;
  b_maximal : bool       (* useMaximalCoordinates *)
}.

Record soft_anchor : Type := SoftAnchor {
  sa_deform : Z;         (* soft body unique id *)
  sa_node : nat;         (* vertex index *)
  sa_body : Z;           (* rigid body the vertex is tied to *)
  sa_link : Z
}.

Record force_req : Type := ForceReq {
  f_body : Z;
  f_link : Z;
  f_force : vec3;
  f_at : vec3;
  f_frame : frame
}.

Record sim : Type := Sim {
  visual_shapes : gmap Z (geom * Q * rgba);
  collision_shapes : gmap Z (geom * Q);
  bodies : gmap Z body;
  deformables : gmap Z (list point);
  constraints : list (Z * soft_anchor);
  ext_forces : list force_req;
  next_visual : nat;
  next_collision : nat;
  next_body : nat;
  next_constraint : nat
}.

#[global] Instance soft_anchor_eq_dec : EqDecision soft_anchor.
Proof. solve_decision. Defined.

(** Calls into the simulator thread its state and may raise; the state
    reached before an exception stays. *)
Definition M (A : Type) : Type := sim → result A * sim.

#[global] Instance M_ret : MRet M := λ _ a s, (Ok a, s).
#[global] Instance M_bind : MBind M := λ _ _ f m s,
  match m s with
  | (Ok a, s') => f a s'
  | (Raise e, s') => (Raise e, s')
  end.

Definition lift {A : Type} (r : result A) : M A := λ s, (r, s).

(** A Python [for] loop whose body is run for its effect. *)
Fixpoint for_each {A : Type} (l : list A) (f : A → M unit) : M unit :=
  match l with
  | [] => mret ()
  | x :: l' => _ ← f x; for_each l' f
  end.

Definition createVisualShape (g : geom) (radius : Q) (rgbaColor : rgba) : M Z :=
  λ s,
  let id := Z.of_nat (next_visual s) in
  (Ok id,
   Sim (<[id := (g, radius, rgbaColor)]> (visual_shapes s)) (collision_shapes s)
       (bodies s) (deformables s) (constraints s) (ext_forces s)
       (S (next_visual s)) (next_collision s) (next_body s) (next_constraint s)).

Definition createCollisionShape (g : geom) (radius : Q) : M Z :=
  λ s,
  let id := Z.of_nat (next_collision s) in
  (Ok id,
   Sim (visual_shapes s) (<[id := (g, radius)]> (collision_shapes s))
       (bodies s) (deformables s) (constraints s) (ext_forces s)
       (next_visual s) (S (next_collision s)) (next_body s) (next_constraint s)).

(** A new body takes the colour of its visual shape (white without one)
    and starts at rest. *)
Definition createMultiBody (baseMass : Q) (basePosition : position)
    (baseCollisionShapeIndex baseVisualShapeIndex : Z)
    (useMaximalCoordinates : bool) : M Z :=
  λ s,
  let id := Z.of_nat (next_body s) in
  let colour :=
    match visual_shapes s !! baseVisualShapeIndex with
    | Some (_, _, c) => c
    | None => (1, 1, 1, 1)%Q
    end in
  let b := Body baseMass basePosition baseCollisionShapeIndex
                baseVisualShapeIndex colour (V3 0 0 0) (V3 0 0 0)
                useMaximalCoordinates in
  (Ok id,
   Sim (visual_shapes s) (collision_shapes s) (<[id := b]> (bodies s))
       (deformables s) (constraints s) (ext_forces s)
       (next_visual s) (next_collision s) (S (next_body s)) (next_constraint s)).

Definition getBaseVelocity (bodyUniqueId : Z) : M (vec3 * vec3) :=
  λ s,
  match bodies s !! bodyUniqueId with
  | Some b => (Ok (b_linvel b, b_angvel b), s)
  | None => (Raise SimError, s)
  end.

Definition applyExternalForce (objectUniqueId linkIndex : Z)
    (forceObj posObj : vec3) (flags : frame) : M unit :=
  λ s,
  (Ok (),
   Sim (visual_shapes s) (collision_shapes s) (bodies s) (deformables s)
       (constraints s)
       (ext_forces s ++ [ForceReq objectUniqueId linkIndex forceObj posObj flags])
       (next_visual s) (next_collision s) (next_body s) (next_constraint s)).

Definition recolour (c : rgba) (b : body) : body :=
  Body (b_mass b) (b_pos b) (b_collision b) (b_visual b) c
       (b_linvel b) (b_angvel b) (b_maximal b).

Definition changeVisualShape (objectUniqueId linkIndex : Z) (rgbaColor : rgba)
  : M unit :=
  λ s,
  (Ok (),
   Sim (visual_shapes s) (collision_shapes s)
       (alter (recolour rgbaColor) objectUniqueId (bodies s))
       (deformables s) (constraints s) (ext_forces s)
       (next_visual s) (next_collision s) (next_body s) (next_constraint s)).

(** Ties one vertex of a soft body to a rigid body and returns the unique
    id of the new constraint.  The simulator refuses an unknown soft body
    and a vertex index outside its mesh. *)
Definition createSoftBodyAnchor (softBodyUniqueId : Z) (nodeIndex : nat)
    (bodyUniqueId linkIndex : Z) : M Z :=
  λ s,
  match deformables s !! softBodyUniqueId with
  | None => (Raise SimError, s)
  | Some mesh =>
      if decide (nodeIndex < length mesh)
      then
        let uid := Z.of_nat (next_constraint s) in
        (Ok uid,
         Sim (visual_shapes s) (collision_shapes s) (bodies s) (deformables s)
             (constraints s ++
                [(uid,
                  SoftAnchor softBodyUniqueId nodeIndex bodyUniqueId linkIndex)])
             (ext_forces s)
             (next_visual s) (next_collision s) (next_body s)
             (S (next_constraint s)))
      else (Raise SimError, s)
  end.

(** Removes the constraint whose unique id is [userConstraintUniqueId];
    nothing happens when there is none. *)
Definition removeConstraint (userConstraintUniqueId : Z) : M unit :=
  λ s,
  (Ok (),
   Sim (visual_shapes s) (collision_shapes s) (bodies s) (deformables s)
       (filter (λ c, c.1 ≠ userConstraintUniqueId) (constraints s))
       (ext_forces s)
       (next_visual s) (next_collision s) (next_body s) (next_constraint s)).

(** Modelled from the spec: [get_mesh_data] of mesh_utils is not part of the
    sources at hand; it reads the deformable object's current vertex
    positions (the full mesh snapshot) from the simulator and returns them
    with their number. *)
Definition get_mesh_data (deform_id : Z) : M (nat * list point) :=
  λ s,
  match deformables s !! deform_id with
  | Some mesh => (Ok (length mesh, mesh), s)
  | None => (Raise SimError, s)
  end.

(** A simulator with nothing in it; PyBullet numbers bodies and shapes from
    0 and constraints from 1. *)
Definition sim_empty : sim := Sim ∅ ∅ ∅ ∅ [] [] 0 0 0 1.

(** ** Anchor life cycle *)

(** Defaults of the Python signature: mass=ANCHOR_MASS, radius=ANCHOR_RADIUS,
    rgba=ANCHOR_RGBA_INACTIVE, use_collision=True. *)
Definition create_anchor_geom (pos : position) (mass radius : Q)
    (colour : rgba) (use_collision : bool) : M Z :=
  anchorVisualShape ← createVisualShape GEOM_SPHERE radius colour;
  anchorCollisionShape ←
    (if bool_decide (0 < mass)%Q && use_collision
     then createCollisionShape GEOM_SPHERE radius
     else mret (-1)%Z);
  anchorId ← createMultiBody mass pos anchorCollisionShape anchorVisualShape true;
  mret anchorId.

(** Defaults of the Python signature: mass=0.1, radius=0.005,
    rgba=(1, 0, 1, 1.0), use_preset=True, use_closest=True.  A [None]
    vertex selection is Python's None. *)
Definition create_anchor `{ArgPartition}
    (anchor_pos : point) (anchor_idx : nat)
    (preset_vertices : option (list (list nat))) (mesh : list point)
    (mass radius : Q) (colour : rgba) (use_preset use_closest : bool)
  : M (Z * position * option (list nat)) :=
  '(anchor_pos, anchor_vertices) ←
    match (if use_preset then preset_vertices else None) with
    | Some presets =>
        anchor_vertices ← lift (of_option IndexError (presets !! anchor_idx));
        rows ← lift (take_rows mesh anchor_vertices);
        mret (mean_axis0 rows, Some anchor_vertices)
    | None =>
        if use_closest
        then '(pos, verts) ← lift (get_closest anchor_pos mesh None);
             mret (pos, Some verts)
        else mret (At anchor_pos, None)
    end;
  anchorGeomId ← create_anchor_geom anchor_pos mass radius colour true;
  mret (anchorGeomId, anchor_pos, anchor_vertices).

(** np.clip on one component and on a vector. *)
Definition clip1 (x lo hi : Q) : Q := Qmin (Qmax x lo) hi.

Definition np_clip (v : vec3) (lo hi : Q) : vec3 :=
  V3 (clip1 (vx v) lo hi) (clip1 (vy v) lo hi) (clip1 (vz v) lo hi).

Definition command_anchor_velocity (anchor_bullet_id : Z) (tgt_vel : vec3)
  : M unit :=
  '(anc_linvel, _) ← getBaseVelocity anchor_bullet_id;
  let vel_diff := vsub tgt_vel anc_linvel in
  let force := vscale CTRL_PD_KD vel_diff in
  let force := np_clip force (- (1) * CTRL_MAX_FORCE) CTRL_MAX_FORCE in
  applyExternalForce anchor_bullet_id (-1) force (V3 0 0 0) LINK_FRAME.

Definition attach_anchor (anchor_id : Z) (anchor_vertices : list nat)
    (deform_id : Z) (change_color : bool) : M unit :=
  _ ← (if change_color
       then changeVisualShape anchor_id (-1) ANCHOR_RGBA_ACTIVE
       else mret ());
  for_each anchor_vertices (λ v,
    _ ← createSoftBodyAnchor deform_id v anchor_id (-1); mret ()).

Definition release_anchor (anchor_id : Z) : M unit :=
  _ ← removeConstraint anchor_id;
  changeVisualShape anchor_id (-1) ANCHOR_RGBA_INACTIVE.

Definition pin_fixed (deform_id : Z) (vert_ids : list nat) : M unit :=
  '(_, v_pos_list) ← get_mesh_data deform_id;
  for_each vert_ids (λ v_idx,
    v_pos ← lift (of_option IndexError (v_pos_list !! v_idx));
    anc_id ← create_anchor_geom (At v_pos) 0 (2 # 1000) ANCHOR_RGBA_PEACH true;
    _ ← createSoftBodyAnchor deform_id v_idx anc_id (-1);
    mret ()).

(** The constraints that tie some vertex to the rigid body [anchor_id]. *)
Definition anchor_constraints (anchor_id : Z) (s : sim) : list (Z * soft_anchor) :=
  filter (λ c, sa_body c.2 = anchor_id) (constraints s).

(** The vertices picked before any distance cap is applied. *)
Definition selected `{ArgPartition} (init_pos : point) (mesh : list point)
  : list nat :=
  take (num_to_pin (length mesh))
       (argpartition (dists_to init_pos mesh) (num_to_pin (length mesh))).


(** The test [mass > 0 and use_collision] of [create_anchor_geom]. *)
Definition wants_collision (mass : Q) (use_collision : bool) : bool :=
  bool_decide (0 < mass)%Q && use_collision.

(** The distance cap of [get_closest] applied to a list of vertex indices:
    [anchor_vertices[dists[anchor_vertices] <= max_dist]], or the list as
    it is without a cap. *)
Definition capped (init_pos : point) (mesh : list point) (max_dist : option float)
    (l : list nat) : list nat :=
  match max_dist with
  | Some m => filter (λ v, (dists_to init_pos mesh !!! v <=? m)%float = true) l
  | None => l
  end.

(** The vertex selection of [create_anchor] (the if / elif / else before
    the marker is created), as a computation of its own. *)
Definition resolve_selection `{ArgPartition}
    (anchor_pos : point) (anchor_idx : nat)
    (preset_vertices : option (list (list nat))) (mesh : list point)
    (use_preset use_closest : bool)
  : result (position * option (list nat)) :=
  match (if use_preset then preset_vertices else None) with
  | Some presets =>
      anchor_vertices ← of_option IndexError (presets !! anchor_idx);
      rows ← take_rows mesh anchor_vertices;
      mret (mean_axis0 rows, Some anchor_vertices)
  | None =>
      if use_closest
      then '(pos, verts) ← get_closest anchor_pos mesh None;
           mret (pos, Some verts)
      else mret (At anchor_pos, None)
  end.

(** The simulator after one round of the loop of [pin_fixed] for vertex
    [v_idx] found at [v_pos]: a zero-mass peach marker at that position and
    one constraint tying the vertex to it. *)
Definition pin_one (deform_id : Z) (v_pos : point) (v_idx : nat) (s : sim) : sim :=
  (createSoftBodyAnchor deform_id v_idx (Z.of_nat (next_body s)) (-1)
     (create_anchor_geom (At v_pos) 0 (2 # 1000) ANCHOR_RGBA_PEACH true s).2).2.

(** ** Sample inputs *)

(** Three vertices; the second one is the target used below. *)
Definition mesh3 : list point := [P3 0 0 0; P3 1 0 0; P3 5 5 5].

(** A simulator holding one dynamic marker, body 0, moving at [v]. *)
Definition sim_one_body (v : vec3) : sim :=
  Sim ∅ ∅
      {[ 0%Z := Body ANCHOR_MASS (At (P3 0 0 0)) (-1) 0 ANCHOR_RGBA_INACTIVE
                     v (V3 0 0 0) true ]}
      ∅ [] [] 1 0 1 1.

(** A simulator holding one deformable, body 5, with two vertices. *)
Definition sim_one_cloth : sim :=
  Sim ∅ ∅ ∅ {[ 5%Z := [P3 0 0 0; P3 1 2 3] ]} [] [] 0 0 0 1.

(** A simulator as a driver sets it up: the deformable is loaded first
    and is body 0, with a mesh of eight vertices; the next body gets id 1
    and the next constraint id 1. *)
Definition mesh8 : list point :=
  [P3 0 0 0; P3 1 0 0; P3 2 0 0; P3 3 0 0;
   P3 0 1 0; P3 1 1 0; P3 2 1 0; P3 3 1 0].

Definition sim_cloth8 : sim := Sim ∅ ∅ ∅ {[ 0%Z := mesh8 ]} [] [] 0 0 1 1.

(** The same with one marker (body 1) and with two markers (bodies 1
    and 2) created at the origin. *)
Definition sim_cloth8_marker : sim :=
  (create_anchor_geom (At (P3 0 0 0)) ANCHOR_MASS ANCHOR_RADIUS
     ANCHOR_RGBA_INACTIVE true sim_cloth8).2.

Definition sim_cloth8_markers : sim :=
  (create_anchor_geom (At (P3 0 0 0)) ANCHOR_MASS ANCHOR_RADIUS
     ANCHOR_RGBA_INACTIVE true sim_cloth8_marker).2.

(** Three vertices on the unit circle, up to rounding, in the plane z = 0.
    Their exact distances to the origin increase from the first to the
    last, while the computed distance of the last one is the smallest. *)
Definition mesh_round : list point :=
  [P3 0x1.520967140492bp-1 0x1.808b9fc547b03p-1 0;
   P3 0x1.252f52ae774ddp-1 0x1.a3bef4dd6a15dp-1 0;
   P3 0x1.f46fb911ab139p-1 0x1.b0cd84c2db8d9p-3 0].

(** A vertex just outside the unit sphere whose computed distance to the
    origin is 1, and a far vertex. *)
Definition mesh_edge : list point := [P3 1 0x1p-30 0; P3 5 5 5].

(** [n] vertices on a line, one unit apart. *)
Definition mesh_line (n : nat) : list point :=
  (λ i, P3 (float_of_nat i) 0 0) <$> seq 0 n.

(** Strict order of two exact values that are both defined. *)
Definition exact_lt (a b : option Q) : Prop :=
  match a, b with
  | Some x, Some y => (x < y)%Q
  | _, _ => False
  end.

(** * Properties *)

(** ** Arithmetic of the cluster size *)

Lemma num_to_pin_lt n : 2 ≤ n → num_to_pin n < n.
Proof.
  intros Hn. unfold num_to_pin.
  assert (n / 50 < n) by (apply Nat.div_lt; lia). lia.
Qed.

Lemma num_to_pin_pos n : 1 ≤ n → 1 ≤ num_to_pin n.
Proof. unfold num_to_pin. lia. Qed.

(** ** Indexing *)

Lemma dists_to_length init mesh : length (dists_to init mesh) = length mesh.
Proof. unfold dists_to. by rewrite length_fmap. Qed.

Lemma take_rows_ok mesh idx :
  Forall (λ i, i < length mesh) idx →
  take_rows mesh idx = Ok ((λ i, mesh !!! i) <$> idx).
Proof.
  induction 1 as [| i idx Hi _ IH]; [done |].
  cbn [take_rows]. rewrite (list_lookup_lookup_total_lt mesh i Hi).
  cbn. rewrite IH. done.
Qed.


(** ** Consequences of the np.argpartition contract *)

Section partition_facts.
Context `{AP : ArgPartition}.

Lemma argpartition_length d kth :
  kth < length d → length (argpartition d kth) = length d.
Proof.
  intros Hk. rewrite (Permutation_length (argpartition_perm d kth Hk)).
  apply length_seq.
Qed.

Lemma argpartition_bound d kth v :
  kth < length d → v ∈ argpartition d kth → v < length d.
Proof.
  intros Hk Hv. rewrite (argpartition_perm d kth Hk) in Hv.
  apply elem_of_seq in Hv. lia.
Qed.

Lemma argpartition_elem d kth v :
  kth < length d → v < length d → v ∈ argpartition d kth.
Proof.
  intros Hk Hv. rewrite (argpartition_perm d kth Hk).
  apply elem_of_seq. lia.
Qed.


Lemma np_argpartition_ok d kth :
  kth < length d → np_argpartition d kth = Ok (argpartition d kth).
Proof.
  intros Hk. unfold np_argpartition.
  destruct (decide (length d = 0)); [lia |].
  destruct (decide (kth < length d)); [done | lia].
Qed.

Lemma np_argpartition_out_of_bounds d kth :
  0 < length d → length d ≤ kth → np_argpartition d kth = Raise ValueError.
Proof.
  intros Hd Hk. unfold np_argpartition.
  destruct (decide (length d = 0)); [lia |].
  destruct (decide (kth < length d)); [lia | done].
Qed.

Lemma selected_bound init mesh v :
  2 ≤ length mesh → v ∈ selected init mesh → v < length mesh.
Proof.
  intros HN Hv. unfold selected in Hv.
  apply elem_of_take in Hv as (i & Hi & _).
  apply list_elem_of_lookup_2 in Hi.
  apply argpartition_bound in Hi.
  - by rewrite dists_to_length in Hi.
  - rewrite dists_to_length. by apply num_to_pin_lt.
Qed.

Lemma selected_length init mesh :
  2 ≤ length mesh → length (selected init mesh) = num_to_pin (length mesh).
Proof.
  intros HN. unfold selected. rewrite length_take, argpartition_length.
  - rewrite dists_to_length. pose proof (num_to_pin_lt _ HN). lia.
  - rewrite dists_to_length. by apply num_to_pin_lt.
Qed.

(** With at least two vertices the selector runs to completion, whatever
    the cap. *)
Lemma get_closest_ok init mesh max_dist :
  2 ≤ length mesh →
  let verts :=
    match max_dist with
    | Some m =>
        filter (λ v, (dists_to init mesh !!! v <=? m)%float = true)
               (selected init mesh)
    | None => selected init mesh
    end in
  get_closest init mesh max_dist
  = Ok (mean_axis0 ((λ i, mesh !!! i) <$> verts), verts).
Proof.
  intros HN verts. unfold get_closest.
  rewrite np_argpartition_ok
    by (rewrite dists_to_length; by apply num_to_pin_lt).
  cbn. fold (selected init mesh). fold verts.
  rewrite take_rows_ok; [done |].
  apply Forall_forall. intros v Hv. apply (selected_bound init); [done |].
  subst verts. destruct max_dist; [| done].
  by apply list_elem_of_filter in Hv as [_ Hv].
Qed.
End partition_facts.

(** ** Sorted lists and order statistics *)

Lemma filter_all {A} (P : A → Prop) `{∀ x, Decision (P x)} (l : list A) :
  Forall P l → filter P l = l.
Proof.
  induction 1 as [| x l Hx _ IH]; [done |].
  rewrite filter_cons_True by done. by rewrite IH.
Qed.

Lemma filter_none {A} (P : A → Prop) `{∀ x, Decision (P x)} (l : list A) :
  Forall (λ x, ¬ P x) l → filter P l = [].
Proof.
  induction 1 as [| x l Hx _ IH]; [done |].
  by rewrite filter_cons_False.
Qed.

Lemma StronglySorted_lookup_total {A} `{!Inhabited A} (R : relation A)
    (l : list A) i j :
  StronglySorted R l → i < j → j < length l → R (l !!! i) (l !!! j).
Proof.
  intros Hs. revert i j.
  induction Hs as [| x l Hs IH Hx]; intros i j Hij Hj; cbn in Hj; [lia |].
  destruct j as [| j]; [lia |]. destruct i as [| i]; cbn.
  - rewrite Forall_forall in Hx. apply Hx.
    apply list_elem_of_lookup_total_2. lia.
  - apply IH; lia.
Qed.


(** ** NumPy's order on doubles is a total preorder *)

Ltac compare_cases :=
  repeat match goal with
  | |- context [PosDef.Pos.compare_cont Eq ?a ?b] =>
      change (PosDef.Pos.compare_cont Eq a b) with (Pos.compare a b)
  | |- context [Z.compare ?a ?b] => destruct (Z.compare_spec a b); subst
  | |- context [Pos.compare ?a ?b] => destruct (Pos.compare_spec a b); subst
  end.

(** [np_lt] is the strict lexicographic order of the keys. *)
Lemma np_lt_key a b :
  np_lt a b = key_lt (sort_key (Prim2SF a)) (sort_key (Prim2SF b)).
Proof.
  unfold np_lt, is_nan. rewrite FloatAxioms.ltb_spec, !FloatAxioms.eqb_spec.
  generalize (Prim2SF a) (Prim2SF b). clear a b. intros a b.
  unfold SFltb, SFeqb, SFcompare.
  destruct a as [[] | [] | | [] m1 e1], b as [[] | [] | | [] m2 e2];
    try reflexivity;
    cbn [sort_key key_lt]; apply eq_iff_eq_true;
    repeat (rewrite orb_true_iff || rewrite andb_true_iff);
    rewrite ?Z.ltb_lt, ?Z.eqb_eq;
    compare_cases; cbn; intuition (try lia; try congruence).
Qed.

Lemma key_lt_asym a b : key_lt a b = true → key_lt b a = false.
Proof.
  destruct a as [[a1 a2] a3], b as [[b1 b2] b3]. unfold key_lt.
  intros H. apply not_true_is_false. revert H.
  rewrite !orb_true_iff, !andb_true_iff, !orb_true_iff, !andb_true_iff,
    !Z.ltb_lt, !Z.eqb_eq. lia.
Qed.

Lemma key_lt_cotrans a b c :
  key_lt c a = true → key_lt b a = true ∨ key_lt c b = true.
Proof.
  destruct a as [[a1 a2] a3], b as [[b1 b2] b3], c as [[c1 c2] c3].
  unfold key_lt.
  rewrite !orb_true_iff, !andb_true_iff, !orb_true_iff, !andb_true_iff,
    !Z.ltb_lt, !Z.eqb_eq. lia.
Qed.

Lemma np_le_total a b : np_le a b = true ∨ np_le b a = true.
Proof.
  unfold np_le. rewrite !np_lt_key.
  destruct (key_lt (sort_key (Prim2SF b)) (sort_key (Prim2SF a))) eqn:E.
  - right. by rewrite (key_lt_asym _ _ E).
  - by left.
Qed.

Lemma np_le_refl a : np_le a a = true.
Proof. by destruct (np_le_total a a). Qed.

Lemma np_le_trans a b c :
  np_le a b = true → np_le b c = true → np_le a c = true.
Proof.
  unfold np_le. rewrite !np_lt_key, !negb_true_iff. intros H1 H2.
  apply not_true_is_false. intros H3.
  destruct (key_lt_cotrans _ (sort_key (Prim2SF b)) _ H3); congruence.
Qed.

Lemma np_le_false a b : np_le a b = false ↔ np_lt b a = true.
Proof. unfold np_le. by destruct (np_lt b a). Qed.

Section sorting_facts.
Variable d : list float.

#[local] Instance by_dist_trans : Transitive (by_dist d).
Proof. intros i j k. apply np_le_trans. Qed.

#[local] Instance by_dist_total : Total (by_dist d).
Proof. intros i j. apply np_le_total. Qed.

Lemma argsort_perm : argsort d ≡ₚ seq 0 (length d).
Proof. apply merge_sort_Permutation. Qed.

Lemma argsort_length : length (argsort d) = length d.
Proof. rewrite (Permutation_length argsort_perm). apply length_seq. Qed.

Lemma argsort_sorted : StronglySorted (by_dist d) (argsort d).
Proof. apply StronglySorted_merge_sort; apply _. Qed.

Lemma argsort_ordered i j :
  i < j → j < length d →
  np_le (d !!! (argsort d !!! i)) (d !!! (argsort d !!! j)) = true.
Proof.
  intros Hij Hj.
  apply (StronglySorted_lookup_total (by_dist d) (argsort d) i j
           argsort_sorted Hij).
  by rewrite argsort_length.
Qed.




End sorting_facts.

#[global] Instance argsort_partition : ArgPartition := {|
  argpartition d _ := argsort d;
  argpartition_perm d _ _ := argsort_perm d;
  argpartition_before d kth i Hk Hi := argsort_ordered d i kth Hi Hk;
  argpartition_after d kth j Hk Hj := argsort_ordered d kth j Hk Hj
|}.

(** ** The nearest-cluster selector *)

Lemma dists_to_lookup init mesh v p :
  mesh !! v = Some p →
  dists_to init mesh !!! v
  = PrimFloat.sqrt ((px p - px init) * (px p - px init)
                    + (py p - py init) * (py p - py init)
                    + (pz p - pz init) * (pz p - pz init))%float.
Proof.
  intros Hv. unfold dists_to. apply list_lookup_total_correct.
  by rewrite list_lookup_fmap, Hv.
Qed.

Section selector.
Context `{AP : ArgPartition}.

(** An empty mesh passes the bounds check and selects nothing. *)
Lemma get_closest_empty_mesh init max_dist :
  get_closest init [] max_dist = Ok (NaNs, []).
Proof. unfold get_closest. cbn. by destruct max_dist. Qed.

(** With two or more vertices and no cap the cluster has exactly
    min(N, max(1, N // 50)) members, so at least one. *)
Lemma get_closest_size init mesh :
  2 ≤ length mesh →
  ∃ pos verts,
    get_closest init mesh None = Ok (pos, verts) ∧
    length verts = Nat.min (length mesh) (Nat.max 1 (length mesh / 50)) ∧
    verts ≠ [].
Proof.
  intros HN. eexists _, _. split; [by apply get_closest_ok |].
  cbn. assert (Hlen := selected_length init mesh HN).
  split; [done |]. intros Hnil. rewrite Hnil in Hlen. cbn in Hlen.
  pose proof (num_to_pin_pos (length mesh)). lia.
Qed.

(** A one-vertex mesh fails the bounds check of np.argpartition. *)
Lemma get_closest_one_vertex init p max_dist :
  get_closest init [p] max_dist = Raise ValueError.
Proof.
  unfold get_closest.
  rewrite np_argpartition_out_of_bounds; [done | cbn; lia | cbn; lia].
Qed.

(** The sizes quoted for 200 and for 10 vertices. *)
Lemma get_closest_size_examples init mesh :
  (length mesh = 200 →
   ∃ pos verts, get_closest init mesh None = Ok (pos, verts) ∧
                length verts = 4) ∧
  (length mesh = 10 →
   ∃ pos verts, get_closest init mesh None = Ok (pos, verts) ∧
                length verts = 1).
Proof.
  split; intros HN;
    destruct (get_closest_size init mesh ltac:(lia))
      as (pos & verts & Hret & Hlen & _);
    exists pos, verts; (split; [done |]); by rewrite Hlen, HN.
Qed.

(** C1, on the code: for a mesh with a single vertex the cluster size is
    min(1, max(1, 1 // 50)) = 1; it is handed to np.argpartition as
    [kth], which is out of bounds for an array of length 1, so
    [get_closest] raises ValueError instead of returning a cluster of
    size 1. *)
Theorem get_closest_single_vertex_raises init p max_dist :
  num_to_pin (length [p]) = 1 ∧
  np_argpartition (dists_to init [p]) 1 = Raise ValueError ∧
  get_closest init [p] max_dist = Raise ValueError.
Proof.
  split; [done |]. split.
  - apply np_argpartition_out_of_bounds; cbn; lia.
  - unfold get_closest.
    rewrite np_argpartition_out_of_bounds; [done | cbn; lia | cbn; lia].
Qed.

(** Whatever [get_closest] returns is the capped selection with its mean. *)
Lemma get_closest_inv init mesh max_dist pos verts :
  get_closest init mesh max_dist = Ok (pos, verts) →
  length mesh ≠ 1 ∧
  verts = capped init mesh max_dist (selected init mesh) ∧
  pos = mean_axis0 ((λ i, mesh !!! i) <$> verts).
Proof.
  intros Hret. destruct mesh as [| p [| q mesh]].
  - rewrite get_closest_empty_mesh in Hret. injection Hret as <- <-.
    split; [done |]. by destruct max_dist.
  - by rewrite get_closest_one_vertex in Hret.
  - rewrite get_closest_ok in Hret by (cbn; lia). cbn zeta in Hret.
    injection Hret as <- <-. split; [done |]. by destruct max_dist.
Qed.

(** A selected vertex is never farther, in computed distance, than the
    pivot of the partition. *)
Lemma selected_le_pivot init mesh v :
  2 ≤ length mesh →
  v ∈ selected init mesh →
  np_le (dists_to init mesh !!! v)
        (dists_to init mesh
           !!! (argpartition (dists_to init mesh) (num_to_pin (length mesh))
                  !!! num_to_pin (length mesh))) = true.
Proof.
  intros HN Hv. unfold selected in Hv.
  apply elem_of_take in Hv as (i & Hi & Hlt).
  apply list_lookup_total_correct in Hi. subst v.
  apply argpartition_before; [| done].
  rewrite dists_to_length. by apply num_to_pin_lt.
Qed.

(** A selected vertex is never farther, in computed distance, than a
    vertex that was left out. *)
Lemma selected_le_unselected init mesh v u :
  2 ≤ length mesh →
  v ∈ selected init mesh → u < length mesh → u ∉ selected init mesh →
  np_le (dists_to init mesh !!! v) (dists_to init mesh !!! u) = true.
Proof.
  intros HN Hv Hu Hnot.
  pose proof (selected_le_pivot init mesh v HN Hv) as Hpiv.
  set (d := dists_to init mesh) in *.
  set (k := num_to_pin (length mesh)) in *.
  assert (Hk : k < length d).
  { unfold d. rewrite dists_to_length. by apply num_to_pin_lt. }
  assert (Hin : u ∈ argpartition d k).
  { apply argpartition_elem; [done |]. unfold d. by rewrite dists_to_length. }
  apply list_elem_of_lookup in Hin as [j Hj].
  pose proof (lookup_lt_Some _ _ _ Hj) as Hjlt.
  rewrite argpartition_length in Hjlt by done.
  assert (k ≤ j).
  { destruct (decide (k ≤ j)); [done | exfalso]. apply Hnot.
    unfold selected. fold d k. apply elem_of_take. exists j.
    split; [done | lia]. }
  apply list_lookup_total_correct in Hj. subst u.
  destruct (decide (j = k)) as [-> | Hne]; [done |].
  eapply np_le_trans; [exact Hpiv |].
  apply argpartition_after; [lia | done].
Qed.
End selector.

(** ** The pivot of a partition and the sorted distances *)

Section pivot.
Context `{AP : ArgPartition}.
Variable d : list float.
Variable k : nat.
Hypothesis Hk : k < length d.

End pivot.

(** ** The selector: claims on distances *)

Section selector_claims.
Context `{AP : ArgPartition}.


(** C3, as amended: with a maximum distance, the returned index set is the
    selection with every vertex whose computed distance is not [<=] the
    maximum dropped (and nothing else), and it is empty when no selected
    vertex passes.  The computed distance is the double
    sqrt(dx·dx + dy·dy + dz·dz).  With two or more vertices the call
    returns. *)
Theorem get_closest_max_dist init mesh m :
  (2 ≤ length mesh →
   ∃ pos verts, get_closest init mesh (Some m) = Ok (pos, verts)) ∧
  (∀ pos verts,
     get_closest init mesh (Some m) = Ok (pos, verts) →
     let d := dists_to init mesh in
     (∀ v p, mesh !! v = Some p →
        d !!! v
        = PrimFloat.sqrt ((px p - px init) * (px p - px init)
                          + (py p - py init) * (py p - py init)
                          + (pz p - pz init) * (pz p - pz init))%float) ∧
     (∀ v, v ∈ selected init mesh → (d !!! v <=? m)%float = false →
        v ∉ verts) ∧
     (∀ v, v ∈ verts ↔
        v ∈ selected init mesh ∧ (d !!! v <=? m)%float = true) ∧
     ((∀ v, v ∈ selected init mesh → (d !!! v <=? m)%float = false) →
      verts = [])).
Proof.
  split.
  { intros HN. eexists _, _. by apply get_closest_ok. }
  intros pos verts Hret d. split; [apply dists_to_lookup |].
  apply get_closest_inv in Hret as (_ & -> & _). cbn [capped]. fold d.
  split; [| split].
  - intros v _ Hgt Hin. apply list_elem_of_filter in Hin as [Hle _].
    by rewrite Hgt in Hle.
  - intros v. rewrite list_elem_of_filter. tauto.
  - intros Hall. apply filter_none. apply Forall_forall.
    intros v Hv. by rewrite (Hall v Hv).
Qed.

(** C9: when the distance cap removes every selected vertex, the call
    does not raise: it returns the empty index set together with the
    all-NaN mean of zero rows.  (A single-vertex mesh never reaches the
    filter.) *)
Theorem get_closest_empty_selection init mesh m :
  length mesh ≠ 1 →
  (∀ v, v ∈ selected init mesh →
     (dists_to init mesh !!! v <=? m)%float = false) →
  get_closest init mesh (Some m) = Ok (mean_axis0 [], []) ∧
  mean_axis0 [] = NaNs.
Proof.
  intros HN Hall. split; [| done].
  destruct mesh as [| p [| q mesh]]; [| done |].
  - apply get_closest_empty_mesh.
  - rewrite get_closest_ok by (cbn; lia). cbn zeta.
    rewrite filter_none; [done |].
    apply Forall_forall. intros v Hv. by rewrite (Hall v Hv).
Qed.
End selector_claims.



Lemma get_closest_max_dist_witness :
  ∃ pos verts,
    get_closest (P3 0 0 0) (mesh_line 100) (Some 0.5%float) = Ok (pos, verts) ∧
    0 ∈ verts ∧ 1 ∉ verts.
Proof.
  destruct (get_closest_max_dist (P3 0 0 0) (mesh_line 100) 0.5%float)
    as [Hret Hcap].
  destruct (Hret ltac:(vm_compute; lia)) as (pos & verts & Heq).
  exists pos, verts. split; [exact Heq |].
  destruct (Hcap pos verts Heq) as (_ & Hdrop & Hiff & _). split.
  - apply Hiff. split; [vm_compute; repeat constructor | by vm_compute].
  - apply Hdrop; [vm_compute; repeat constructor | by vm_compute].
Defined.

(** The claim C3 read with exact Euclidean distances fails: on
    [mesh_edge] with maximum 1 the call keeps vertex 0, whose exact
    distance to the target is larger than 1 (its square is 1 + 2^-60). *)
Lemma get_closest_max_dist_counterexample :
  (∃ pos, get_closest (P3 0 0 0) mesh_edge (Some 1%float) = Ok (pos, [0])) ∧
  exact_lt (m ← exact 1%float; Some (m * m)%Q)
           (exact_sqdist (mesh_edge !!! 0) (P3 0 0 0)).
Proof.
  split; [eexists; by vm_compute | by vm_compute].
Qed.

Lemma get_closest_empty_selection_witness :
  get_closest (P3 3 0 0) mesh3 (Some 0.5%float) = Ok (NaNs, []).
Proof.
  apply (proj1 (get_closest_empty_selection (P3 3 0 0) mesh3 0.5%float
                  ltac:(cbn; lia)
                  ltac:(intros v Hv; vm_compute in Hv;
                        apply list_elem_of_singleton in Hv; subst v;
                        by vm_compute))).
Defined.

(** ** The selector: shape of the result *)

Section selector_more.
Context `{AP : ArgPartition}.

Lemma capped_sublist init mesh max_dist l :
  capped init mesh max_dist l `sublist_of` l.
Proof. destruct max_dist; [apply sublist_filter | done]. Qed.

Lemma selected_NoDup init mesh : length mesh ≠ 1 → NoDup (selected init mesh).
Proof.
  intros HN. destruct mesh as [| p [| q mesh]]; [| done |].
  - unfold selected. cbn. constructor.
  - unfold selected. eapply sublist_NoDup; [| apply sublist_take].
    rewrite argpartition_perm; [apply NoDup_seq |].
    rewrite dists_to_length. apply num_to_pin_lt. cbn. lia.
Qed.

Lemma selected_in_range init mesh v :
  length mesh ≠ 1 → v ∈ selected init mesh → v < length mesh.
Proof.
  intros HN Hv. destruct mesh as [| p [| q mesh]]; [| done |].
  - unfold selected in Hv. cbn in Hv. by apply not_elem_of_nil in Hv.
  - apply (selected_bound init); [cbn; lia | done].
Qed.

(** X1: the index set [get_closest] returns has no repeated index, holds
    valid vertex indices only, and has at most min(N, max(1, N // 50))
    members, with or without a distance cap. *)
Theorem get_closest_indices_valid init mesh max_dist pos verts :
  get_closest init mesh max_dist = Ok (pos, verts) →
  NoDup verts ∧
  (∀ v, v ∈ verts → v < length mesh) ∧
  length verts ≤ Nat.min (length mesh) (Nat.max 1 (length mesh / 50)).
Proof.
  intros (HN & -> & _)%get_closest_inv.
  pose proof (capped_sublist init mesh max_dist (selected init mesh)) as Hsub.
  split; [| split].
  - eapply sublist_NoDup; [by apply selected_NoDup | exact Hsub].
  - intros v Hv. apply (selected_in_range init); [done |].
    by eapply elem_of_sublist.
  - apply sublist_length in Hsub. etrans; [exact Hsub |].
    unfold selected. rewrite length_take. fold (num_to_pin (length mesh)). lia.
Qed.

(** X3: without a cap, a vertex whose computed distance is strictly
    smaller than that of every other vertex is always in the returned
    index set, for whatever way np.argpartition breaks ties. *)
Theorem get_closest_strict_nearest init mesh pos verts u :
  get_closest init mesh None = Ok (pos, verts) →
  u < length mesh →
  (∀ w, w < length mesh → w ≠ u →
     np_lt (dists_to init mesh !!! u) (dists_to init mesh !!! w) = true) →
  u ∈ verts.
Proof.
  intros (HN & -> & _)%get_closest_inv Hu Hbest. cbn.
  assert (H2 : 2 ≤ length mesh) by lia.
  destruct (decide (u ∈ selected init mesh)) as [| Hnot]; [done | exfalso].
  pose proof (selected_length init mesh H2) as Hlen.
  pose proof (num_to_pin_pos (length mesh) ltac:(lia)) as Hpos.
  destruct (selected init mesh) as [| v vs] eqn:Hsel; [cbn in Hlen; lia |].
  assert (Hv : v ∈ selected init mesh) by (rewrite Hsel; left).
  assert (Hvu : v ≠ u) by (intros ->; apply Hnot; left).
  rewrite <- Hsel in Hnot.
  pose proof (selected_le_unselected init mesh v u H2 Hv Hu Hnot) as Hle.
  pose proof (Hbest v (selected_bound init mesh v H2 Hv) Hvu) as Hlt.
  unfold np_le in Hle. by rewrite Hlt in Hle.
Qed.

(** X6: on a mesh of 2 to 99 vertices the cluster is a single vertex: the
    call without a cap returns one index, the position is the mean of that
    one row, and no vertex of the mesh has a smaller computed distance to
    the target. *)
Theorem get_closest_small_mesh init mesh :
  2 ≤ length mesh → length mesh < 100 →
  ∃ v,
    get_closest init mesh None = Ok (mean_axis0 [mesh !!! v], [v]) ∧
    v < length mesh ∧
    ∀ u, u < length mesh →
      np_le (dists_to init mesh !!! v) (dists_to init mesh !!! u) = true.
Proof.
  intros H2 H100.
  assert (Hk : num_to_pin (length mesh) = 1).
  { unfold num_to_pin.
    assert (length mesh / 50 < 2) by (apply Nat.Div0.div_lt_upper_bound; lia).
    lia. }
  pose proof (selected_length init mesh H2) as Hlen. rewrite Hk in Hlen.
  destruct (selected init mesh) as [| v [| v' vs]] eqn:Hsel;
    [done | | done].
  assert (Hv : v ∈ selected init mesh) by (rewrite Hsel; left).
  exists v. split; [| split].
  - rewrite (get_closest_ok init mesh None H2). cbn zeta. by rewrite Hsel.
  - by apply (selected_bound init).
  - intros u Hu. destruct (decide (u = v)) as [-> | Hne].
    + apply np_le_refl.
    + apply selected_le_unselected; [done | done | done |].
      rewrite Hsel. by intros Hin%list_elem_of_singleton.
Qed.
End selector_more.

Lemma get_closest_indices_valid_witness :
  NoDup [1] ∧ (∀ v, v ∈ [1] → v < length mesh3).
Proof.
  destruct (get_closest_indices_valid (P3 1 0 0) mesh3 None
              (At (P3 1 0 0)) [1] ltac:(by vm_compute)) as (Hd & Hr & _).
  by split.
Defined.

Lemma get_closest_strict_nearest_witness :
  get_closest (P3 0 0 0) mesh_round None
  = Ok (mean_axis0 [mesh_round !!! 2], [2]) ∧ 2 ∈ [2].
Proof.
  assert (Hrun : get_closest (P3 0 0 0) mesh_round None
                 = Ok (mean_axis0 [mesh_round !!! 2], [2])) by by vm_compute.
  split; [exact Hrun |].
  apply (get_closest_strict_nearest (P3 0 0 0) mesh_round _ [2] 2 Hrun).
  - cbn. lia.
  - intros [| [| [| w]]] Hw Hne; [by vm_compute | by vm_compute | done |].
    cbn in Hw. lia.
Defined.

Lemma get_closest_small_mesh_witness :
  ∃ v,
    get_closest (P3 1 0 0) mesh3 None = Ok (mean_axis0 [mesh3 !!! v], [v]) ∧
    v < 3 ∧
    ∀ u, u < 3 →
      np_le (dists_to (P3 1 0 0) mesh3 !!! v)
            (dists_to (P3 1 0 0) mesh3 !!! u) = true.
Proof.
  apply (get_closest_small_mesh (P3 1 0 0) mesh3); cbn; lia.
Defined.

(** ** The velocity controller *)




(** ** The velocity controller: frame and monotonicity *)

Lemma command_anchor_velocity_run s anchor_bullet_id tgt_vel :
  command_anchor_velocity anchor_bullet_id tgt_vel s
  = match bodies s !! anchor_bullet_id with
    | Some b =>
        (Ok (),
         Sim (visual_shapes s) (collision_shapes s) (bodies s) (deformables s)
             (constraints s)
             (ext_forces s ++
                [ForceReq anchor_bullet_id (-1)
                   (np_clip (vscale CTRL_PD_KD (vsub tgt_vel (b_linvel b)))
                            (- (1) * CTRL_MAX_FORCE) CTRL_MAX_FORCE)
                   (V3 0 0 0) LINK_FRAME])
             (next_visual s) (next_collision s) (next_body s)
             (next_constraint s))
    | None => (Raise SimError, s)
    end.
Proof.
  unfold command_anchor_velocity, mbind, M_bind, getBaseVelocity.
  by destruct (bodies s !! anchor_bullet_id).
Qed.

(** X7: the controller only requests a force.  It leaves every body as it
    is (in particular it never sets the velocity), and leaves constraints,
    shapes and meshes alone; for a known body exactly one request is
    added; for an unknown body the call raises and requests nothing. *)
Theorem command_anchor_velocity_frame s anchor_bullet_id tgt_vel :
  let r := command_anchor_velocity anchor_bullet_id tgt_vel s in
  bodies r.2 = bodies s ∧ constraints r.2 = constraints s ∧
  visual_shapes r.2 = visual_shapes s ∧
  collision_shapes r.2 = collision_shapes s ∧
  deformables r.2 = deformables s ∧
  (bodies s !! anchor_bullet_id = None → r = (Raise SimError, s)) ∧
  (is_Some (bodies s !! anchor_bullet_id) →
   r.1 = Ok () ∧ length (ext_forces r.2) = S (length (ext_forces s))).
Proof.
  intros r. subst r. rewrite command_anchor_velocity_run.
  destruct (bodies s !! anchor_bullet_id) as [b |]; cbn.
  - repeat split; try done; try (rewrite length_app; cbn; lia).
  - repeat split; try done; try (by intros [? ?]).
Qed.

Lemma command_anchor_velocity_frame_witness :
  command_anchor_velocity 7 (V3 1 0 0) (sim_one_body (V3 0 0 0))
  = (Raise SimError, sim_one_body (V3 0 0 0)).
Proof.
  apply (command_anchor_velocity_frame (sim_one_body (V3 0 0 0)) 7 (V3 1 0 0)).
  reflexivity.
Defined.




(** ** Marker creation *)

Lemma wants_collision_iff mass use_collision :
  wants_collision mass use_collision = true
  ↔ (0 < mass)%Q ∧ use_collision = true.
Proof.
  unfold wants_collision. rewrite andb_true_iff, bool_decide_eq_true. done.
Qed.

(** What one call of [create_anchor_geom] does to the simulator. *)
Lemma create_anchor_geom_run pos mass radius colour use_collision s :
  create_anchor_geom pos mass radius colour use_collision s
  = (Ok (Z.of_nat (next_body s)),
     Sim (<[Z.of_nat (next_visual s) := (GEOM_SPHERE, radius, colour)]>
            (visual_shapes s))
         (if wants_collision mass use_collision
          then <[Z.of_nat (next_collision s) := (GEOM_SPHERE, radius)]>
                 (collision_shapes s)
          else collision_shapes s)
         (<[Z.of_nat (next_body s) :=
              Body mass pos
                   (if wants_collision mass use_collision
                    then Z.of_nat (next_collision s) else (-1)%Z)
                   (Z.of_nat (next_visual s)) colour
                   (V3 0 0 0) (V3 0 0 0) true]> (bodies s))
         (deformables s) (constraints s) (ext_forces s)
         (S (next_visual s))
         (if wants_collision mass use_collision
          then S (next_collision s) else next_collision s)
         (S (next_body s)) (next_constraint s)).
Proof.
  unfold create_anchor_geom, wants_collision, mbind, M_bind, mret, M_ret.
  destruct (bool_decide (0 < mass)%Q && use_collision); cbn;
    by rewrite lookup_insert_eq.
Qed.

Lemma create_anchor_geom_body pos mass radius colour use_collision s :
  ∃ b,
    bodies (create_anchor_geom pos mass radius colour use_collision s).2
      !! Z.of_nat (next_body s) = Some b ∧
    b_mass b = mass ∧ b_pos b = pos ∧ b_rgba b = colour ∧
    b_collision b = (if wants_collision mass use_collision
                     then Z.of_nat (next_collision s) else (-1)%Z).
Proof.
  rewrite create_anchor_geom_run. cbn. eexists. split.
  - apply lookup_insert_eq.
  - done.
Qed.

Lemma createSoftBodyAnchor_frame softBodyUniqueId nodeIndex bodyUniqueId
    linkIndex s :
  let s' := (createSoftBodyAnchor softBodyUniqueId nodeIndex bodyUniqueId
               linkIndex s).2 in
  bodies s' = bodies s ∧ deformables s' = deformables s ∧
  ext_forces s' = ext_forces s ∧ next_body s' = next_body s ∧
  visual_shapes s' = visual_shapes s ∧
  collision_shapes s' = collision_shapes s.
Proof.
  unfold createSoftBodyAnchor.
  destruct (deformables s !! softBodyUniqueId) as [mesh |]; [| done].
  by destruct (decide (nodeIndex < length mesh)).
Qed.

(** The constraint is created when the soft body is known and the vertex
    is in range. *)
Lemma createSoftBodyAnchor_ok softBodyUniqueId nodeIndex bodyUniqueId
    linkIndex s mesh :
  deformables s !! softBodyUniqueId = Some mesh →
  nodeIndex < length mesh →
  createSoftBodyAnchor softBodyUniqueId nodeIndex bodyUniqueId linkIndex s
  = (Ok (Z.of_nat (next_constraint s)),
     Sim (visual_shapes s) (collision_shapes s) (bodies s) (deformables s)
         (constraints s ++
            [(Z.of_nat (next_constraint s),
              SoftAnchor softBodyUniqueId nodeIndex bodyUniqueId linkIndex)])
         (ext_forces s)
         (next_visual s) (next_collision s) (next_body s)
         (S (next_constraint s))).
Proof.
  intros Hd Hv. unfold createSoftBodyAnchor. rewrite Hd.
  by destruct (decide (nodeIndex < length mesh)).
Qed.

(** It is refused, with nothing changed, otherwise. *)
Lemma createSoftBodyAnchor_refused softBodyUniqueId nodeIndex bodyUniqueId
    linkIndex s :
  (deformables s !! softBodyUniqueId = None ∨
   ∃ mesh, deformables s !! softBodyUniqueId = Some mesh ∧
           length mesh ≤ nodeIndex) →
  createSoftBodyAnchor softBodyUniqueId nodeIndex bodyUniqueId linkIndex s
  = (Raise SimError, s).
Proof.
  unfold createSoftBodyAnchor. intros [-> | (mesh & -> & Hge)]; [done |].
  destruct (decide (nodeIndex < length mesh)); [lia | done].
Qed.

(** One round of the loop of [pin_fixed]. *)
Lemma pin_fixed_step deform_id (v_pos_list : list point) v_idx s :
  (v_pos ← lift (of_option IndexError (v_pos_list !! v_idx));
   anc_id ← create_anchor_geom (At v_pos) 0 (2 # 1000) ANCHOR_RGBA_PEACH true;
   _ ← createSoftBodyAnchor deform_id v_idx anc_id (-1);
   mret ()) s
  = match v_pos_list !! v_idx with
    | None => (Raise IndexError, s)
    | Some v_pos =>
        match createSoftBodyAnchor deform_id v_idx (Z.of_nat (next_body s)) (-1)
                (create_anchor_geom (At v_pos) 0 (2 # 1000)
                                    ANCHOR_RGBA_PEACH true s).2 with
        | (Ok _, s2) => (Ok (), s2)
        | (Raise e, s2) => (Raise e, s2)
        end
    end.
Proof.
  unfold mbind at 1. unfold M_bind at 1. unfold lift at 1.
  destruct (v_pos_list !! v_idx) as [v_pos |]; cbn [of_option]; [| done].
  unfold mbind at 1. unfold M_bind at 1.
  rewrite create_anchor_geom_run. cbn [snd].
  unfold mbind, M_bind. by destruct (createSoftBodyAnchor _ _ _ _ _) as [[]].
Qed.

Lemma pin_fixed_loop_bodies deform_id (v_pos_list : list point) vert_ids :
  ∀ s r s',
    for_each vert_ids (λ v_idx,
      v_pos ← lift (of_option IndexError (v_pos_list !! v_idx));
      anc_id ← create_anchor_geom (At v_pos) 0 (2 # 1000) ANCHOR_RGBA_PEACH true;
      _ ← createSoftBodyAnchor deform_id v_idx anc_id (-1);
      mret ()) s = (r, s') →
    ∀ id b, bodies s' !! id = Some b →
      bodies s !! id = Some b ∨ (b_mass b = 0%Q ∧ b_collision b = (-1)%Z).
Proof.
  induction vert_ids as [| v_idx vert_ids IH]; intros s r s' Hrun id b Hb.
  - cbn in Hrun. injection Hrun as _ <-. by left.
  - cbn [for_each] in Hrun. unfold mbind at 1 in Hrun.
    unfold M_bind at 1 in Hrun. rewrite pin_fixed_step in Hrun.
    destruct (v_pos_list !! v_idx) as [v_pos |];
      [| injection Hrun as _ <-; by left].
    pose proof (createSoftBodyAnchor_frame deform_id v_idx
                  (Z.of_nat (next_body s)) (-1)
                  (create_anchor_geom (At v_pos) 0 (2 # 1000)
                     ANCHOR_RGBA_PEACH true s).2) as (Hbod & _).
    destruct (createSoftBodyAnchor _ _ _ _ _) as [[uid | e] s2];
      cbn [snd] in Hbod.
    + destruct (IH _ _ _ Hrun id b Hb) as [Hold | Hnew]; [| by right].
      rewrite Hbod, create_anchor_geom_run in Hold. cbn in Hold.
      destruct (decide (id = Z.of_nat (next_body s))) as [-> | Hne].
      * rewrite lookup_insert_eq in Hold. injection Hold as <-. by right.
      * rewrite lookup_insert_ne in Hold by done. by left.
    + injection Hrun as _ <-.
      rewrite Hbod, create_anchor_geom_run in Hb. cbn in Hb.
      destruct (decide (id = Z.of_nat (next_body s))) as [-> | Hne].
      * rewrite lookup_insert_eq in Hb. injection Hb as <-. by right.
      * rewrite lookup_insert_ne in Hb by done. by left.
Qed.

(** C10: the marker gets a collision shape exactly when its mass is
    strictly positive and use_collision is set; then it is a sphere of the
    marker's radius.  A marker whose mass is not positive has collision
    shape index -1 whatever use_collision says, and so has every marker
    that [pin_fixed] creates. *)
Theorem create_anchor_geom_collision_iff :
  (∀ s pos mass radius colour use_collision,
     ∃ id s' b,
       create_anchor_geom pos mass radius colour use_collision s = (Ok id, s') ∧
       bodies s' !! id = Some b ∧
       (b_collision b ≠ (-1)%Z ↔ (0 < mass)%Q ∧ use_collision = true) ∧
       ((0 < mass)%Q ∧ use_collision = true →
        collision_shapes s' !! b_collision b = Some (GEOM_SPHERE, radius)) ∧
       (¬ (0 < mass)%Q →
        b_collision b = (-1)%Z ∧ collision_shapes s' = collision_shapes s)) ∧
  (∀ s deform_id vert_ids r s',
     pin_fixed deform_id vert_ids s = (r, s') →
     ∀ id b, bodies s' !! id = Some b → bodies s !! id ≠ Some b →
       b_mass b = 0%Q ∧ b_collision b = (-1)%Z).
Proof.
  split.
  - intros s pos mass radius colour use_collision.
    eexists _, _, _. split; [apply create_anchor_geom_run |].
    cbn. split; [apply lookup_insert_eq |]. cbn.
    pose proof (wants_collision_iff mass use_collision) as Hw.
    destruct (wants_collision mass use_collision).
    + split; [| split].
      * split; [intros _; by apply Hw | intros _; lia].
      * intros _. apply lookup_insert_eq.
      * intros Hn. exfalso. apply Hn. by apply Hw.
    + split; [| split].
      * split; [done |]. intros Hc. apply Hw in Hc. done.
      * intros Hc. apply Hw in Hc. done.
      * done.
  - intros s deform_id vert_ids r s' Hrun id b Hb Hnew.
    unfold pin_fixed in Hrun. unfold mbind at 1 in Hrun.
    unfold M_bind at 1 in Hrun. unfold get_mesh_data in Hrun.
    destruct (deformables s !! deform_id) as [mesh |].
    + destruct (pin_fixed_loop_bodies _ _ _ _ _ _ Hrun id b Hb); done.
    + injection Hrun as _ <-. done.
Qed.

Lemma create_anchor_geom_collision_iff_witness :
  ∃ b,
    bodies (pin_fixed 5 [1]
              sim_one_cloth).2
      !! 0%Z = Some b ∧
    b_mass b = 0%Q ∧ b_collision b = (-1)%Z.
Proof.
  eexists. split; [by vm_compute |].
  eapply (proj2 create_anchor_geom_collision_iff
            sim_one_cloth
            5%Z [1] _ _ ltac:(apply surjective_pairing) 0%Z).
  - by vm_compute.
  - by vm_compute.
Defined.

(** ** Anchor creation *)

(** Each coordinate of the running row sum is the running sum of that
    coordinate. *)
Lemma foldl_padd_coord (rows : list point) :
  ∀ p,
    px (foldl padd p rows) = foldl (λ acc r, (acc + px r)%float) (px p) rows ∧
    py (foldl padd p rows) = foldl (λ acc r, (acc + py r)%float) (py p) rows ∧
    pz (foldl padd p rows) = foldl (λ acc r, (acc + pz r)%float) (pz p) rows.
Proof.
  induction rows as [| r rows IH]; intros p; [done |].
  cbn [foldl]. apply (IH (padd p r)).
Qed.

Section creation.
Context `{AP : ArgPartition}.

(** C5: the vertex selection of [create_anchor] is resolved in this
    order.  With presets enabled and a preset table supplied, the list of
    the anchor's slot is used as it is and the marker is placed at the
    centroid of those rows of the mesh (an array of shape (N, 3)): each
    coordinate is the double-precision sum of that coordinate over the
    listed vertices, taken in the order of the list, divided by their
    number; an empty list gives the all-NaN position.  Otherwise, with
    use_closest, the nearest-cluster selector is run from the given position
    without a distance cap.  Otherwise no selection is made (Python's None)
    and the marker stays at the given position. *)
Theorem create_anchor_priority s anchor_pos anchor_idx preset_vertices mesh
    mass radius colour use_preset use_closest :
  let run := create_anchor anchor_pos anchor_idx preset_vertices mesh
               mass radius colour use_preset use_closest s in
  let marker pos := create_anchor_geom pos mass radius colour true s in
  (∀ presets verts,
     use_preset = true → preset_vertices = Some presets →
     presets !! anchor_idx = Some verts →
     Forall (λ v, v < length mesh) verts →
     let count := PrimFloat.of_uint63 (Uint63.of_Z (Z.of_nat (length verts))) in
     let centroid :=
       match verts with
       | [] => NaNs
       | v :: verts' =>
           let total (coord : point → float) :=
             foldl (λ acc u, (acc + coord (mesh !!! u))%float)
                   (coord (mesh !!! v)) verts' in
           At (P3 (total px / count) (total py / count) (total pz / count))
       end in
     run = (Ok (Z.of_nat (next_body s), centroid, Some verts),
            (marker centroid).2)) ∧
  (∀ pos verts,
     use_preset = false ∨ preset_vertices = None →
     use_closest = true →
     get_closest anchor_pos mesh None = Ok (pos, verts) →
     run = (Ok (Z.of_nat (next_body s), pos, Some verts), (marker pos).2)) ∧
  (use_preset = false ∨ preset_vertices = None →
   use_closest = false →
   run = (Ok (Z.of_nat (next_body s), At anchor_pos, None),
          (marker (At anchor_pos)).2)) ∧
  (∀ pos, ∃ b,
     bodies (marker pos).2 !! Z.of_nat (next_body s) = Some b ∧
     b_pos b = pos).
Proof.
  intros run marker.
  assert (Hnone : use_preset = false ∨ preset_vertices = None →
                  (if use_preset then preset_vertices else None) = None).
  { intros [-> | ->]; [done | by destruct use_preset]. }
  split; [| split; [| split]].
  - intros presets verts -> -> Hslot Hrange count centroid.
    assert (Hmean : mean_axis0 ((λ i, mesh !!! i) <$> verts) = centroid).
    { unfold centroid, count. destruct verts as [| v verts']; [done |].
      cbn [fmap list_fmap mean_axis0].
      destruct (foldl_padd_coord ((λ i, mesh !!! i) <$> verts') (mesh !!! v))
        as (-> & -> & ->).
      rewrite !foldl_fmap. unfold float_of_nat. cbn [length].
      by rewrite length_fmap. }
    unfold run, marker, create_anchor, mbind, M_bind, lift.
    rewrite Hslot. cbn [of_option]. rewrite (take_rows_ok _ _ Hrange).
    unfold mret, M_ret. rewrite Hmean. by rewrite create_anchor_geom_run.
  - intros pos verts Hno -> Hsel.
    unfold run, marker, create_anchor. rewrite (Hnone Hno).
    unfold mbind, M_bind, lift. rewrite Hsel.
    unfold mret, M_ret. by rewrite create_anchor_geom_run.
  - intros Hno ->.
    unfold run, marker, create_anchor. rewrite (Hnone Hno).
    unfold mbind, M_bind, mret, M_ret. by rewrite create_anchor_geom_run.
  - intros pos. unfold marker.
    destruct (create_anchor_geom_body pos mass radius colour true s)
      as (b & Hb & _ & Hpos & _).
    by exists b.
Qed.
End creation.

Lemma create_anchor_priority_witness :
  (create_anchor (P3 1 0 0) 1 (Some [[0]; [1; 2]]) mesh3
     ANCHOR_MASS ANCHOR_RADIUS ANCHOR_RGBA_ACTIVE true true sim_empty).1
  = Ok (0%Z, At (P3 3 0x1.4p+1 0x1.4p+1), Some [1; 2]) ∧
  (create_anchor (P3 1 0 0) 1 (Some [[0]; [1; 2]]) mesh3
     ANCHOR_MASS ANCHOR_RADIUS ANCHOR_RGBA_ACTIVE false true sim_empty).1
  = Ok (0%Z, At (P3 1 0 0), Some [1]) ∧
  (create_anchor (P3 1 0 0) 1 None mesh3
     ANCHOR_MASS ANCHOR_RADIUS ANCHOR_RGBA_ACTIVE true false sim_empty).1
  = Ok (0%Z, At (P3 1 0 0), None).
Proof.
  split; [| split].
  - pose proof (create_anchor_priority sim_empty (P3 1 0 0) 1
                  (Some [[0]; [1; 2]]) mesh3 ANCHOR_MASS ANCHOR_RADIUS
                  ANCHOR_RGBA_ACTIVE true true) as (Hpreset & _).
    rewrite (Hpreset [[0]; [1; 2]] [1; 2] eq_refl eq_refl eq_refl
               ltac:(repeat constructor; cbn; lia)).
    by vm_compute.
  - pose proof (create_anchor_priority sim_empty (P3 1 0 0) 1
                  (Some [[0]; [1; 2]]) mesh3 ANCHOR_MASS ANCHOR_RADIUS
                  ANCHOR_RGBA_ACTIVE false true) as (_ & Hclosest & _).
    by rewrite (Hclosest (At (P3 1 0 0)) [1]
                  (or_introl eq_refl) eq_refl ltac:(by vm_compute)).
  - pose proof (create_anchor_priority sim_empty (P3 1 0 0) 1
                  None mesh3 ANCHOR_MASS ANCHOR_RADIUS
                  ANCHOR_RGBA_ACTIVE true false) as (_ & _ & Hnone & _).
    by rewrite (Hnone (or_intror eq_refl) eq_refl).
Defined.

(** ** Binding and unbinding *)

Lemma attach_loop_run deform_id anchor_id anchor_vertices mesh :
  ∀ s,
    deformables s !! deform_id = Some mesh →
    Forall (λ v, v < length mesh) anchor_vertices →
    for_each anchor_vertices (λ v,
      _ ← createSoftBodyAnchor deform_id v anchor_id (-1); mret ()) s
    = (Ok (),
       Sim (visual_shapes s) (collision_shapes s) (bodies s) (deformables s)
           (constraints s ++
              imap (λ i v, (Z.of_nat (next_constraint s + i),
                            SoftAnchor deform_id v anchor_id (-1)))
                   anchor_vertices)
           (ext_forces s)
           (next_visual s) (next_collision s) (next_body s)
           (next_constraint s + length anchor_vertices)).
Proof.
  induction anchor_vertices as [| v verts IH]; intros s Hd Hall.
  - cbn. rewrite app_nil_r, Nat.add_0_r. by destruct s.
  - apply Forall_cons_1 in Hall as [Hv Hall].
    cbn [for_each]. unfold mbind at 1. unfold M_bind at 1.
    unfold mbind at 1. unfold M_bind at 1.
    rewrite (createSoftBodyAnchor_ok _ _ _ _ _ _ Hd Hv).
    unfold mret at 1. unfold M_ret at 1.
    rewrite IH by done. cbn. rewrite <- app_assoc. cbn.
    rewrite Nat.add_0_r. do 3 f_equal.
    + f_equal. apply imap_ext. intros i x _. cbn. do 2 f_equal. lia.
    + lia.
Qed.

Lemma attach_anchor_run anchor_id anchor_vertices deform_id change_color s mesh :
  deformables s !! deform_id = Some mesh →
  Forall (λ v, v < length mesh) anchor_vertices →
  attach_anchor anchor_id anchor_vertices deform_id change_color s
  = (Ok (),
     Sim (visual_shapes s) (collision_shapes s)
         (if change_color
          then alter (recolour ANCHOR_RGBA_ACTIVE) anchor_id (bodies s)
          else bodies s)
         (deformables s)
         (constraints s ++
            imap (λ i v, (Z.of_nat (next_constraint s + i),
                          SoftAnchor deform_id v anchor_id (-1)))
                 anchor_vertices)
         (ext_forces s)
         (next_visual s) (next_collision s) (next_body s)
         (next_constraint s + length anchor_vertices)).
Proof.
  intros Hd Hall. unfold attach_anchor. unfold mbind at 1. unfold M_bind at 1.
  destruct change_color; cbn;
    by rewrite (attach_loop_run _ _ _ mesh) by done.
Qed.

(** A selection that starts with a vertex the simulator refuses stops
    [attach_anchor] at once: the marker is recoloured if asked, and no
    constraint is created. *)
Lemma attach_anchor_refused anchor_id v anchor_vertices deform_id change_color s :
  (deformables s !! deform_id = None ∨
   ∃ mesh, deformables s !! deform_id = Some mesh ∧ length mesh ≤ v) →
  attach_anchor anchor_id (v :: anchor_vertices) deform_id change_color s
  = (Raise SimError,
     if change_color
     then (changeVisualShape anchor_id (-1) ANCHOR_RGBA_ACTIVE s).2
     else s).
Proof.
  intros Hbad. unfold attach_anchor. unfold mbind at 1. unfold M_bind at 1.
  destruct change_color; cbn [changeVisualShape mret M_ret for_each];
    unfold mbind at 1; unfold M_bind at 1;
    unfold mbind at 1; unfold M_bind at 1;
    by rewrite createSoftBodyAnchor_refused.
Qed.

Lemma release_anchor_run anchor_id s :
  release_anchor anchor_id s
  = (Ok (),
     Sim (visual_shapes s) (collision_shapes s)
         (alter (recolour ANCHOR_RGBA_INACTIVE) anchor_id (bodies s))
         (deformables s)
         (filter (λ c, c.1 ≠ anchor_id) (constraints s))
         (ext_forces s)
         (next_visual s) (next_collision s) (next_body s) (next_constraint s)).
Proof. done. Qed.

(** C8: on a deformable the simulator knows and vertex indices of its
    mesh, [attach_anchor] returns and adds one soft-body anchor constraint
    for each vertex index of the selection, in order, each tying that
    vertex of the deformable to the marker (link -1), under consecutive
    fresh constraint ids; the constraints already there are kept.  The
    marker takes the active colour (1, 0, 1, 1) when change_color is set and
    keeps its colour otherwise; nothing else of it and no other body
    changes.  An empty selection creates no constraint, whatever the
    deformable.  A deformable the simulator does not know makes the first
    creation fail: the call raises and no constraint is created. *)
Theorem attach_anchor_constraints s anchor_id anchor_vertices deform_id
    change_color :
  let r := attach_anchor anchor_id anchor_vertices deform_id change_color s in
  (∀ mesh,
     deformables s !! deform_id = Some mesh →
     Forall (λ v, v < length mesh) anchor_vertices →
     r.1 = Ok () ∧
     constraints r.2
     = constraints s ++
       imap (λ i v, (Z.of_nat (next_constraint s + i),
                     SoftAnchor deform_id v anchor_id (-1)))
            anchor_vertices ∧
     length (constraints r.2)
     = length (constraints s) + length anchor_vertices ∧
     (∀ b, bodies s !! anchor_id = Some b →
        bodies r.2 !! anchor_id
        = Some (Body (b_mass b) (b_pos b) (b_collision b) (b_visual b)
                     (if change_color then (1, 0, 1, 1)%Q else b_rgba b)
                     (b_linvel b) (b_angvel b) (b_maximal b))) ∧
     (∀ id, id ≠ anchor_id → bodies r.2 !! id = bodies s !! id)) ∧
  (anchor_vertices = [] → r.1 = Ok () ∧ constraints r.2 = constraints s) ∧
  (deformables s !! deform_id = None → anchor_vertices ≠ [] →
   r.1 = Raise SimError ∧ constraints r.2 = constraints s).
Proof.
  intros r. subst r. split; [| split].
  - intros mesh Hd Hall. rewrite (attach_anchor_run _ _ _ _ _ mesh) by done.
    cbn. split; [done |]. split; [done |]. split; [| split].
    + by rewrite length_app, length_imap.
    + intros b Hb. destruct change_color.
      * by rewrite lookup_alter_eq, Hb.
      * rewrite Hb. by destruct b.
    + intros id Hne. destruct change_color; [| done].
      by apply lookup_alter_ne.
  - intros ->. unfold attach_anchor, mbind, M_bind.
    by destruct change_color.
  - intros Hnone Hne. destruct anchor_vertices as [| v verts]; [done |].
    rewrite attach_anchor_refused by by left.
    by destruct change_color.
Qed.

Lemma attach_anchor_constraints_witness :
  (attach_anchor 1 [3; 7] 0 true sim_cloth8_marker).1 = Ok () ∧
  constraints (attach_anchor 1 [3; 7] 0 true sim_cloth8_marker).2
  = [(1%Z, SoftAnchor 0 3 1 (-1)); (2%Z, SoftAnchor 0 7 1 (-1))] ∧
  bodies (attach_anchor 1 [3; 7] 0 true sim_cloth8_marker).2 !! 1%Z
  = Some (Body ANCHOR_MASS (At (P3 0 0 0)) 0 0 (1, 0, 1, 1)%Q
               (V3 0 0 0) (V3 0 0 0) true).
Proof.
  destruct (proj1 (attach_anchor_constraints sim_cloth8_marker 1 [3; 7] 0 true)
              mesh8 eq_refl ltac:(repeat constructor; cbn; lia))
    as (Hok & Hcs & _ & Hcol & _).
  split; [exact Hok |]. split; [by rewrite Hcs |].
  by rewrite (Hcol _ eq_refl).
Defined.

(** The marker is recoloured to the inactive colour by [release_anchor]. *)
Lemma release_anchor_colour s anchor_id b :
  bodies s !! anchor_id = Some b →
  ∃ b', bodies (release_anchor anchor_id s).2 !! anchor_id = Some b' ∧
        b_rgba b' = ANCHOR_RGBA_INACTIVE.
Proof.
  intros Hb. rewrite release_anchor_run. cbn.
  exists (recolour ANCHOR_RGBA_INACTIVE b). by rewrite lookup_alter_eq, Hb.
Qed.

(** [release_anchor] removes nothing but the constraint whose unique id is
    the number of the marker body. *)
Lemma release_anchor_keeps_other_constraints s anchor_id c :
  c ∈ constraints s → c.1 ≠ anchor_id →
  c ∈ constraints (release_anchor anchor_id s).2.
Proof.
  intros Hc Hne. rewrite release_anchor_run. cbn.
  by apply list_elem_of_filter.
Qed.




(** After attaching two vertices of a known deformable and releasing, the
    marker still holds at least one of the two constraints, from whatever
    state. *)
Lemma attach_release_leaves_constraint s anchor_id deform_id v1 v2
    change_color mesh :
  deformables s !! deform_id = Some mesh →
  v1 < length mesh → v2 < length mesh →
  let s1 := (attach_anchor anchor_id [v1; v2] deform_id change_color s).2 in
  anchor_constraints anchor_id (release_anchor anchor_id s1).2 ≠ [].
Proof.
  intros Hd Hv1 Hv2 s1 Hnil.
  assert (Hin : ∀ c, c ∈ constraints s1 → c.1 ≠ anchor_id →
                 sa_body c.2 = anchor_id → False).
  { intros c Hc Hne Hb.
    apply (release_anchor_keeps_other_constraints s1 anchor_id c Hc) in Hne.
    assert (Hc' : c ∈ anchor_constraints anchor_id
                        (release_anchor anchor_id s1).2)
      by by apply list_elem_of_filter.
    rewrite Hnil in Hc'. by apply not_elem_of_nil in Hc'. }
  subst s1. rewrite (attach_anchor_run _ _ _ _ _ mesh) in Hin
    by (try done; by repeat constructor).
  cbn in Hin.
  destruct (decide (Z.of_nat (next_constraint s + 0) = anchor_id)) as [He | Hne].
  - apply (Hin (Z.of_nat (next_constraint s + 1),
                SoftAnchor deform_id v2 anchor_id (-1))); cbn; [| lia | done].
    rewrite elem_of_app. right. set_solver.
  - apply (Hin (Z.of_nat (next_constraint s + 0),
                SoftAnchor deform_id v1 anchor_id (-1))); cbn; [| done | done].
    rewrite elem_of_app. right. set_solver.
Qed.

(** C6, on the code.  The cloth is body 0 of the simulator and has eight
    vertices; the markers are bodies 1 and 2.  [release_anchor] passes the
    marker's body id to removeConstraint, which removes by constraint
    unique id, and the ids that createSoftBodyAnchor returned were thrown
    away by [attach_anchor].  First run: marker 1 is attached to vertices 3
    and 7 (constraints 1 and 2) and released; constraint 2 still ties
    vertex 7 to it, while its colour is the inactive one.  Second run:
    marker 1 is attached to vertices 3 and 7 (constraints 1 and 2), marker 2
    to vertex 5 (constraint 3), and marker 2 is released; marker 2 keeps its
    constraint, and marker 1 has lost vertex 7. *)
Theorem release_anchor_leaves_constraints :
  (let s2 := (attach_anchor 1 [3; 7] 0 true sim_cloth8_marker).2 in
   let s3 := (release_anchor 1 s2).2 in
   (attach_anchor 1 [3; 7] 0 true sim_cloth8_marker).1 = Ok () ∧
   anchor_constraints 1 s2
   = [(1%Z, SoftAnchor 0 3 1 (-1)); (2%Z, SoftAnchor 0 7 1 (-1))] ∧
   (release_anchor 1 s2).1 = Ok () ∧
   anchor_constraints 1 s3 = [(2%Z, SoftAnchor 0 7 1 (-1))] ∧
   b_rgba <$> bodies s3 !! 1%Z = Some ANCHOR_RGBA_INACTIVE) ∧
  (let s2 := (attach_anchor 1 [3; 7] 0 true sim_cloth8_markers).2 in
   let s3 := (attach_anchor 2 [5] 0 true s2).2 in
   let s4 := (release_anchor 2 s3).2 in
   (attach_anchor 1 [3; 7] 0 true sim_cloth8_markers).1 = Ok () ∧
   (attach_anchor 2 [5] 0 true s2).1 = Ok () ∧
   (release_anchor 2 s3).1 = Ok () ∧
   anchor_constraints 2 s4 = [(3%Z, SoftAnchor 0 5 2 (-1))] ∧
   anchor_constraints 1 s4 = [(1%Z, SoftAnchor 0 3 1 (-1))] ∧
   b_rgba <$> bodies s4 !! 2%Z = Some ANCHOR_RGBA_INACTIVE).
Proof. by vm_compute. Qed.

(** ** Anchor creation: effects and errors *)

Lemma take_rows_fail mesh idx :
  ¬ Forall (λ i, i < length mesh) idx → take_rows mesh idx = Raise IndexError.
Proof.
  induction idx as [| i idx IH]; intros Hn.
  - exfalso. apply Hn. constructor.
  - cbn [take_rows]. destruct (mesh !! i) as [p |] eqn:Hi; [| done].
    cbn. rewrite IH; [done |]. intros Hall. apply Hn. constructor; [| done].
    by eapply lookup_lt_Some.
Qed.

Section creation_more.
Context `{AP : ArgPartition}.

(** [create_anchor] is the selection followed by the creation of the
    marker; nothing is created when the selection raises. *)
Lemma create_anchor_split s anchor_pos anchor_idx preset_vertices mesh
    mass radius colour use_preset use_closest :
  create_anchor anchor_pos anchor_idx preset_vertices mesh
    mass radius colour use_preset use_closest s
  = match resolve_selection anchor_pos anchor_idx preset_vertices mesh
            use_preset use_closest with
    | Ok (pos, verts) =>
        (Ok (Z.of_nat (next_body s), pos, verts),
         (create_anchor_geom pos mass radius colour true s).2)
    | Raise e => (Raise e, s)
    end.
Proof.
  unfold create_anchor, resolve_selection.
  destruct (if use_preset then preset_vertices else None) as [presets |].
  - unfold mbind, M_bind, lift, result_bind.
    destruct (presets !! anchor_idx) as [l |]; cbn [of_option]; [| done].
    destruct (take_rows mesh l) as [rows | e]; [| done].
    unfold mret, M_ret, result_ret. by rewrite create_anchor_geom_run.
  - destruct use_closest.
    + unfold mbind, M_bind, lift, result_bind.
      destruct (get_closest anchor_pos mesh None) as [[pos verts] | e];
        [| done].
      unfold mret, M_ret, result_ret. by rewrite create_anchor_geom_run.
    + unfold mbind, M_bind, mret, M_ret, result_ret.
      by rewrite create_anchor_geom_run.
Qed.

(** X10: [create_anchor] either fails and leaves the simulator exactly as
    it was (no marker is created), or succeeds and adds exactly one body,
    the marker, under the next free body id, at the returned position and
    with the requested mass and colour.  It never creates a constraint:
    binding is left to [attach_anchor]. *)
Theorem create_anchor_effects s anchor_pos anchor_idx preset_vertices mesh
    mass radius colour use_preset use_closest :
  let r := create_anchor anchor_pos anchor_idx preset_vertices mesh
             mass radius colour use_preset use_closest s in
  (∀ e, r.1 = Raise e → r.2 = s) ∧
  (∀ id pos verts,
     r.1 = Ok (id, pos, verts) →
     id = Z.of_nat (next_body s) ∧
     next_body r.2 = S (next_body s) ∧
     constraints r.2 = constraints s ∧
     ext_forces r.2 = ext_forces s ∧
     ∃ b, bodies r.2 = <[id := b]> (bodies s) ∧
          b_pos b = pos ∧ b_mass b = mass ∧ b_rgba b = colour).
Proof.
  intros r. subst r. rewrite create_anchor_split.
  destruct (resolve_selection _ _ _ _ _ _) as [[pos verts] | e]; cbn [fst snd].
  - split; [done |]. intros id pos' verts' [= <- <- <-].
    rewrite create_anchor_geom_run. cbn. split; [done |]. split; [done |].
    split; [done |]. split; [done |]. by eexists.
  - split; [done | done].
Qed.

(** X11: the ways the selection of [create_anchor] can fail or degenerate.
    With presets in use, a slot index outside the preset table and a preset
    vertex outside the mesh both raise IndexError before any marker is
    created; valid preset vertices always succeed; an empty preset list
    succeeds with a NaN position.  Without presets and with use_closest, a
    one-vertex mesh raises ValueError and no marker is created. *)
Theorem create_anchor_errors s anchor_pos anchor_idx preset_vertices mesh
    mass radius colour use_preset use_closest :
  let r := create_anchor anchor_pos anchor_idx preset_vertices mesh
             mass radius colour use_preset use_closest s in
  (∀ presets, use_preset = true → preset_vertices = Some presets →
     (presets !! anchor_idx = None → r = (Raise IndexError, s)) ∧
     (∀ l, presets !! anchor_idx = Some l →
        (¬ Forall (λ v, v < length mesh) l → r = (Raise IndexError, s)) ∧
        (Forall (λ v, v < length mesh) l →
         r.1 = Ok (Z.of_nat (next_body s),
                   mean_axis0 ((λ i, mesh !!! i) <$> l), Some l)) ∧
        (l = [] → r.1 = Ok (Z.of_nat (next_body s), NaNs, Some [])))) ∧
  (use_preset = false ∨ preset_vertices = None → use_closest = true →
   length mesh = 1 → r = (Raise ValueError, s)).
Proof.
  intros r. subst r. rewrite create_anchor_split. unfold resolve_selection.
  split.
  - intros presets -> ->. split.
    + by intros ->.
    + intros l ->. cbn [of_option]. unfold mbind, result_bind.
      split; [| split].
      * intros Hbad. by rewrite take_rows_fail.
      * intros Hok. by rewrite take_rows_ok.
      * by intros ->.
  - intros Hno -> Hone.
    replace (if use_preset then preset_vertices else None)
      with (@None (list (list nat)))
      by (destruct Hno as [-> | ->]; [done | by destruct use_preset]).
    destruct mesh as [| p [| q mesh]]; [done | | done].
    by rewrite get_closest_one_vertex.
Qed.

(** X12: creating an anchor by nearest-cluster selection on the mesh of
    a deformable the simulator holds, and attaching the returned selection
    to that deformable, succeeds and binds the marker to exactly
    min(N, max(1, N // 50)) vertices of the mesh, all different and all in
    range: the constraints added are one per returned vertex, in order,
    each tying it to the new marker, and the earlier constraints are
    kept. *)
Theorem create_then_attach s anchor_pos anchor_idx mesh mass radius colour
    deform_id change_color :
  deformables s !! deform_id = Some mesh →
  2 ≤ length mesh →
  ∃ id pos verts s1,
    create_anchor anchor_pos anchor_idx None mesh mass radius colour
      true true s = (Ok (id, pos, Some verts), s1) ∧
    (attach_anchor id verts deform_id change_color s1).1 = Ok () ∧
    let s2 := (attach_anchor id verts deform_id change_color s1).2 in
    take (length (constraints s)) (constraints s2) = constraints s ∧
    (λ c, c.2) <$> drop (length (constraints s)) (constraints s2)
    = (λ v, SoftAnchor deform_id v id (-1)) <$> verts ∧
    length verts = Nat.min (length mesh) (Nat.max 1 (length mesh / 50)) ∧
    NoDup verts ∧
    Forall (λ v, v < length mesh) verts.
Proof.
  intros Hd HN. eexists _, _, _, _. split.
  { rewrite create_anchor_split. unfold resolve_selection. cbn.
    rewrite (get_closest_ok anchor_pos mesh None HN). cbn. reflexivity. }
  assert (Hrange : Forall (λ v, v < length mesh) (selected anchor_pos mesh)).
  { apply Forall_forall. intros v Hv. by apply (selected_bound anchor_pos). }
  cbn zeta. rewrite create_anchor_geom_run.
  rewrite (attach_anchor_run _ _ _ _ _ mesh) by done. cbn.
  split; [done |].
  split; [by rewrite take_app_length |]. rewrite drop_app_length.
  split.
  { rewrite fmap_imap. apply list_eq. intros i.
    rewrite list_lookup_imap, list_lookup_fmap.
    by destruct (selected anchor_pos mesh !! i). }
  split; [by apply selected_length |].
  split; [apply selected_NoDup; lia | done].
Qed.
End creation_more.

Lemma create_anchor_effects_witness :
  (create_anchor (P3 1 0 0) 0 None [P3 0 0 0]
     ANCHOR_MASS ANCHOR_RADIUS ANCHOR_RGBA_ACTIVE true true sim_empty).2
  = sim_empty.
Proof.
  apply (proj1 (create_anchor_effects sim_empty (P3 1 0 0) 0 None [P3 0 0 0]
                  ANCHOR_MASS ANCHOR_RADIUS ANCHOR_RGBA_ACTIVE true true)
           ValueError).
  by vm_compute.
Defined.

Lemma create_anchor_errors_witness :
  create_anchor (P3 1 0 0) 5 (Some [[0; 1]; [2]]) mesh3
    ANCHOR_MASS ANCHOR_RADIUS ANCHOR_RGBA_ACTIVE true true sim_empty
  = (Raise IndexError, sim_empty) ∧
  create_anchor (P3 1 0 0) 1 (Some [[0; 1]; [7]]) mesh3
    ANCHOR_MASS ANCHOR_RADIUS ANCHOR_RGBA_ACTIVE true true sim_empty
  = (Raise IndexError, sim_empty).
Proof.
  split.
  - apply (proj1 (proj1 (create_anchor_errors sim_empty (P3 1 0 0) 5
                           (Some [[0; 1]; [2]]) mesh3 ANCHOR_MASS
                           ANCHOR_RADIUS ANCHOR_RGBA_ACTIVE true true)
                    [[0; 1]; [2]] eq_refl eq_refl)).
    reflexivity.
  - apply (proj1 (proj2 (proj1 (create_anchor_errors sim_empty (P3 1 0 0) 1
                           (Some [[0; 1]; [7]]) mesh3 ANCHOR_MASS
                           ANCHOR_RADIUS ANCHOR_RGBA_ACTIVE true true)
                    [[0; 1]; [7]] eq_refl eq_refl) [7] eq_refl)).
    intros Hall. apply Forall_cons_1 in Hall as [Hlt _]. cbn in Hlt. lia.
Defined.

Lemma create_then_attach_witness :
  ∃ id pos verts s1,
    create_anchor (P3 1 0 0) 0 None mesh8 ANCHOR_MASS ANCHOR_RADIUS
      ANCHOR_RGBA_ACTIVE true true sim_cloth8 = (Ok (id, pos, Some verts), s1) ∧
    (attach_anchor id verts 0 true s1).1 = Ok () ∧
    length verts = 1.
Proof.
  destruct (create_then_attach sim_cloth8 (P3 1 0 0) 0 mesh8 ANCHOR_MASS
              ANCHOR_RADIUS ANCHOR_RGBA_ACTIVE 0 true eq_refl
              ltac:(cbn; lia))
    as (id & pos & verts & s1 & Hrun & Hok & _ & _ & Hlen & _).
  by exists id, pos, verts, s1.
Defined.

(** ** Binding: counting and composition *)

Lemma Forall_imap {A B} (P : B → Prop) (f : nat → A → B) (l : list A) :
  (∀ i x, P (f i x)) → Forall P (imap f l).
Proof.
  intros Hf. apply Forall_lookup. intros i y Hy.
  rewrite list_lookup_imap in Hy.
  destruct (l !! i) as [x |]; [| done]. injection Hy as <-. apply Hf.
Qed.

(** X13: on a deformable the simulator knows and vertex indices of its
    mesh, [attach_anchor] raises the number of constraints held by the
    marker by exactly the number of vertices given, whether or not some of
    them are bound to it already (nothing is de-duplicated, so attaching
    the same selection twice doubles it), and leaves the constraints of
    every other marker as they are. *)
Theorem attach_anchor_count s anchor_id anchor_vertices deform_id change_color
    mesh :
  deformables s !! deform_id = Some mesh →
  Forall (λ v, v < length mesh) anchor_vertices →
  let s1 := (attach_anchor anchor_id anchor_vertices deform_id change_color s).2 in
  let s2 := (attach_anchor anchor_id anchor_vertices deform_id change_color s1).2 in
  (attach_anchor anchor_id anchor_vertices deform_id change_color s).1 = Ok () ∧
  (attach_anchor anchor_id anchor_vertices deform_id change_color s1).1 = Ok () ∧
  length (anchor_constraints anchor_id s1)
  = length (anchor_constraints anchor_id s) + length anchor_vertices ∧
  length (anchor_constraints anchor_id s2)
  = length (anchor_constraints anchor_id s) + 2 * length anchor_vertices ∧
  (∀ other, other ≠ anchor_id →
     anchor_constraints other s1 = anchor_constraints other s).
Proof.
  intros Hd Hall.
  assert (Hone : ∀ t, deformables t !! deform_id = Some mesh →
    length (anchor_constraints anchor_id
              (attach_anchor anchor_id anchor_vertices deform_id change_color t).2)
    = length (anchor_constraints anchor_id t) + length anchor_vertices).
  { intros t Ht. rewrite (attach_anchor_run _ _ _ _ _ mesh) by done.
    unfold anchor_constraints. cbn.
    rewrite filter_app, length_app. f_equal.
    rewrite filter_all; [apply length_imap |]. by apply Forall_imap. }
  assert (Hd1 : deformables
                  (attach_anchor anchor_id anchor_vertices deform_id
                     change_color s).2 !! deform_id = Some mesh).
  { by rewrite (attach_anchor_run _ _ _ _ _ mesh) by done. }
  intros s1 s2. subst s1 s2.
  split; [by rewrite (attach_anchor_run _ _ _ _ _ mesh) by done |].
  split; [by rewrite (attach_anchor_run _ _ _ _ _ mesh Hd1 Hall) |].
  split; [by apply Hone |]. split.
  - rewrite (Hone _ Hd1), (Hone _ Hd). lia.
  - intros other Hne. rewrite (attach_anchor_run _ _ _ _ _ mesh) by done.
    unfold anchor_constraints. cbn. rewrite filter_app.
    rewrite (filter_none _ (imap _ _)); [by rewrite app_nil_r |].
    apply Forall_imap. intros i v. cbn. congruence.
Qed.

Lemma attach_anchor_count_witness :
  length (anchor_constraints 1
            (attach_anchor 1 [3; 7] 0 true
               (attach_anchor 1 [3; 7] 0 true sim_cloth8_markers).2).2) = 4 ∧
  anchor_constraints 2 (attach_anchor 1 [3; 7] 0 true sim_cloth8_markers).2
  = [].
Proof.
  destruct (attach_anchor_count sim_cloth8_markers 1 [3; 7] 0 true mesh8
              eq_refl ltac:(repeat constructor; cbn; lia))
    as (_ & _ & _ & Htwice & Hother).
  split; [by rewrite Htwice |]. by rewrite (Hother 2%Z ltac:(lia)).
Defined.

(** X14: on a deformable the simulator knows and vertex indices of its
    mesh, attaching a selection in two pieces is the same as attaching it
    at once: both ways return, and the simulator reached is the same. *)
Theorem attach_anchor_app s anchor_id verts1 verts2 deform_id change_color
    mesh :
  deformables s !! deform_id = Some mesh →
  Forall (λ v, v < length mesh) (verts1 ++ verts2) →
  attach_anchor anchor_id (verts1 ++ verts2) deform_id change_color s
  = attach_anchor anchor_id verts2 deform_id false
      (attach_anchor anchor_id verts1 deform_id change_color s).2 ∧
  (attach_anchor anchor_id (verts1 ++ verts2) deform_id change_color s).1
  = Ok ().
Proof.
  intros Hd Hall. pose proof Hall as Hall'.
  apply Forall_app in Hall' as [H1 H2].
  rewrite (attach_anchor_run _ (verts1 ++ verts2) _ _ _ mesh) by done.
  rewrite (attach_anchor_run _ verts1 _ _ _ mesh) by done.
  rewrite (attach_anchor_run _ verts2 _ _ _ mesh) by done.
  cbn. split; [| done]. rewrite length_app, imap_app.
  rewrite <- app_assoc. do 2 f_equal.
  - do 2 f_equal. apply imap_ext. intros i v _. cbn. do 2 f_equal. lia.
  - lia.
Qed.

Lemma attach_anchor_app_witness :
  attach_anchor 1 [3; 7] 0 true sim_cloth8_marker
  = attach_anchor 1 [7] 0 false
      (attach_anchor 1 [3] 0 true sim_cloth8_marker).2 ∧
  constraints (attach_anchor 1 [7] 0 false
                 (attach_anchor 1 [3] 0 true sim_cloth8_marker).2).2
  = [(1%Z, SoftAnchor 0 3 1 (-1)); (2%Z, SoftAnchor 0 7 1 (-1))].
Proof.
  split.
  - apply (proj1 (attach_anchor_app sim_cloth8_marker 1 [3] [7] 0 true mesh8
                    eq_refl ltac:(repeat constructor; cbn; lia))).
  - by vm_compute.
Defined.

(** ** Release: idempotence *)

(** X15: releasing twice is the same as releasing once, and after a
    release no constraint carries the marker's body id as its unique id;
    every constraint that is left was there before. *)
Theorem release_anchor_idempotent s anchor_id :
  release_anchor anchor_id (release_anchor anchor_id s).2
  = release_anchor anchor_id s ∧
  ∀ c, c ∈ constraints (release_anchor anchor_id s).2 →
       c.1 ≠ anchor_id ∧ c ∈ constraints s.
Proof.
  rewrite !release_anchor_run. cbn. split.
  - do 2 f_equal.
    + rewrite alter_alter_eq. by apply alter_ext.
    + rewrite list_filter_filter. apply list_filter_iff. tauto.
  - intros c Hc. by apply list_elem_of_filter in Hc.
Qed.

Lemma release_anchor_idempotent_witness :
  (2%Z, SoftAnchor 0 7 1 (-1)).1 ≠ 1%Z ∧
  (2%Z, SoftAnchor 0 7 1 (-1))
    ∈ constraints (attach_anchor 1 [3; 7] 0 true sim_cloth8_marker).2.
Proof.
  apply (proj2 (release_anchor_idempotent
                  (attach_anchor 1 [3; 7] 0 true sim_cloth8_marker).2 1)
           (2%Z, SoftAnchor 0 7 1 (-1))).
  vm_compute. constructor.
Defined.

(** ** Fixed pins *)

Lemma for_each_app {A} (l1 l2 : list A) (f : A → M unit) s :
  for_each (l1 ++ l2) f s
  = match for_each l1 f s with
    | (Ok _, s1) => for_each l2 f s1
    | (Raise e, s1) => (Raise e, s1)
    end.
Proof.
  induction l1 as [| x l1 IH] in s |- *; [done |].
  cbn [app for_each]. unfold mbind, M_bind.
  destruct (f x s) as [[[] | e] s1]; [apply IH | done].
Qed.

(** One round of the loop of [pin_fixed] on a vertex of a known
    deformable: the constraint is accepted. *)
Lemma pin_step_ok deform_id mesh v_pos v_idx s :
  deformables s !! deform_id = Some mesh → v_idx < length mesh →
  createSoftBodyAnchor deform_id v_idx (Z.of_nat (next_body s)) (-1)
    (create_anchor_geom (At v_pos) 0 (2 # 1000) ANCHOR_RGBA_PEACH true s).2
  = (Ok (Z.of_nat (next_constraint s)), pin_one deform_id v_pos v_idx s).
Proof.
  intros Hd Hv. unfold pin_one. rewrite create_anchor_geom_run. cbn [snd].
  by rewrite (createSoftBodyAnchor_ok _ _ _ _ _ mesh) by done.
Qed.

Lemma pin_one_fields deform_id mesh v_pos v_idx s :
  deformables s !! deform_id = Some mesh → v_idx < length mesh →
  pin_one deform_id v_pos v_idx s
  = Sim (<[Z.of_nat (next_visual s) :=
             (GEOM_SPHERE, 2 # 1000, ANCHOR_RGBA_PEACH)]> (visual_shapes s))
        (collision_shapes s)
        (<[Z.of_nat (next_body s) :=
             Body 0 (At v_pos) (-1) (Z.of_nat (next_visual s))
                  ANCHOR_RGBA_PEACH (V3 0 0 0) (V3 0 0 0) true]> (bodies s))
        (deformables s)
        (constraints s ++
           [(Z.of_nat (next_constraint s),
             SoftAnchor deform_id v_idx (Z.of_nat (next_body s)) (-1))])
        (ext_forces s)
        (S (next_visual s)) (next_collision s) (S (next_body s))
        (S (next_constraint s)).
Proof.
  intros Hd Hv. unfold pin_one. rewrite create_anchor_geom_run. cbn [snd].
  by rewrite (createSoftBodyAnchor_ok _ _ _ _ _ mesh) by done.
Qed.

(** With every vertex id in range the loop of [pin_fixed] runs through. *)
Lemma pin_fixed_loop_ok deform_id (mesh : list point) vert_ids s :
  deformables s !! deform_id = Some mesh →
  Forall (λ v, v < length mesh) vert_ids →
  for_each vert_ids (λ v_idx,
    v_pos ← lift (of_option IndexError (mesh !! v_idx));
    anc_id ← create_anchor_geom (At v_pos) 0 (2 # 1000) ANCHOR_RGBA_PEACH true;
    _ ← createSoftBodyAnchor deform_id v_idx anc_id (-1);
    mret ()) s
  = (Ok (),
     foldl (λ t v, pin_one deform_id (mesh !!! v) v t) s vert_ids).
Proof.
  intros Hd Hall. induction Hall as [| v vs Hv _ IH] in s, Hd |- *; [done |].
  cbn [for_each foldl]. unfold mbind at 1. unfold M_bind at 1.
  rewrite pin_fixed_step.
  rewrite (list_lookup_lookup_total_lt mesh v Hv).
  rewrite (pin_step_ok _ mesh) by done. apply IH.
  by rewrite (pin_one_fields _ mesh) by done.
Qed.

Lemma pin_fold_fields deform_id (mesh : list point) vert_ids s :
  deformables s !! deform_id = Some mesh →
  Forall (λ v, v < length mesh) vert_ids →
  let s' := foldl (λ t v, pin_one deform_id (mesh !!! v) v t) s vert_ids in
  constraints s'
  = constraints s ++
    imap (λ i v, (Z.of_nat (next_constraint s + i),
                  SoftAnchor deform_id v (Z.of_nat (next_body s + i)) (-1)))
         vert_ids ∧
  next_body s' = next_body s + length vert_ids ∧
  collision_shapes s' = collision_shapes s ∧
  deformables s' = deformables s ∧
  ext_forces s' = ext_forces s ∧
  (∀ i v, vert_ids !! i = Some v →
     bodies s' !! Z.of_nat (next_body s + i)
     = Some (Body 0 (At (mesh !!! v)) (-1) (Z.of_nat (next_visual s + i))
                  ANCHOR_RGBA_PEACH (V3 0 0 0) (V3 0 0 0) true)) ∧
  (∀ id, (id < Z.of_nat (next_body s))%Z → bodies s' !! id = bodies s !! id).
Proof.
  intros Hd Hall.
  induction Hall as [| v vs Hv _ IH] in s, Hd |- *; cbn zeta.
  { cbn. rewrite app_nil_r, Nat.add_0_r. repeat split; done. }
  cbn [foldl].
  pose proof (pin_one_fields deform_id mesh (mesh !!! v) v s Hd Hv) as Hone.
  specialize (IH (pin_one deform_id (mesh !!! v) v s)).
  rewrite Hone in IH |- *.
  specialize (IH Hd). cbn zeta in IH.
  destruct IH as (Hc & Hnb & Hcs & Hds & Hf & Hnew & Hold).
  cbn [constraints next_body collision_shapes deformables ext_forces
       next_constraint next_visual bodies] in Hc, Hnb, Hcs, Hds, Hf, Hnew, Hold.
  split; [| split; [| split; [| split; [| split; [| split]]]]].
  - rewrite Hc, <- app_assoc. f_equal. rewrite imap_cons. cbn.
    rewrite Nat.add_0_r. rewrite !Nat.add_0_r. f_equal.
    apply imap_ext. intros i x _. cbn. do 2 f_equal; [lia |].
    do 2 f_equal. lia.
  - rewrite Hnb. cbn. lia.
  - done.
  - done.
  - done.
  - intros [| i] w Hi.
    + cbn in Hi. injection Hi as ->. rewrite Hold by lia.
      rewrite !Nat.add_0_r. apply lookup_insert_eq.
    + cbn in Hi. specialize (Hnew i w Hi).
      replace (next_body s + S i) with (S (next_body s) + i) by lia.
      replace (next_visual s + S i) with (S (next_visual s) + i) by lia.
      exact Hnew.
  - intros id Hid. rewrite Hold by lia. apply lookup_insert_ne. lia.
Qed.

(** X16: for a known deformable and vertex ids that are all in range,
    [pin_fixed] succeeds and pins every listed vertex to a marker of its
    own: the i-th vertex gets a new zero-mass, peach, collision-free marker
    placed at that vertex's position in the mesh read at the start, and
    one constraint tying the vertex to that marker; bodies that existed
    before are untouched and no force is requested. *)
Theorem pin_fixed_pins_each s deform_id mesh vert_ids :
  deformables s !! deform_id = Some mesh →
  Forall (λ v, v < length mesh) vert_ids →
  ∃ s',
    pin_fixed deform_id vert_ids s = (Ok (), s') ∧
    constraints s'
    = constraints s ++
      imap (λ i v, (Z.of_nat (next_constraint s + i),
                    SoftAnchor deform_id v (Z.of_nat (next_body s + i)) (-1)))
           vert_ids ∧
    next_body s' = next_body s + length vert_ids ∧
    ext_forces s' = ext_forces s ∧
    (∀ i v, vert_ids !! i = Some v →
       ∃ b, bodies s' !! Z.of_nat (next_body s + i) = Some b ∧
            b_pos b = At (mesh !!! v) ∧ b_mass b = 0%Q ∧
            b_collision b = (-1)%Z ∧ b_rgba b = ANCHOR_RGBA_PEACH) ∧
    (∀ id, (id < Z.of_nat (next_body s))%Z → bodies s' !! id = bodies s !! id).
Proof.
  intros Hd Hall. eexists. split.
  { unfold pin_fixed. unfold mbind at 1. unfold M_bind at 1.
    unfold get_mesh_data. rewrite Hd. by apply pin_fixed_loop_ok. }
  destruct (pin_fold_fields deform_id mesh vert_ids s Hd Hall)
    as (Hc & Hnb & _ & _ & Hf & Hnew & Hold).
  split; [done |]. split; [done |]. split; [done |]. split; [| done].
  intros i v Hi. eexists. split; [by apply Hnew |]. done.
Qed.

Lemma pin_fixed_pins_each_witness :
  ∃ s', pin_fixed 5 [1; 0] sim_one_cloth = (Ok (), s') ∧
        next_body s' = 2.
Proof.
  destruct (pin_fixed_pins_each sim_one_cloth 5 [P3 0 0 0; P3 1 2 3] [1; 0]
              ltac:(reflexivity)
              ltac:(repeat constructor))
    as (s' & Hrun & _ & Hnb & _).
  by exists s'.
Defined.

(** X17: [pin_fixed] does not validate its vertex ids beforehand.  At the
    first id that is out of range it raises IndexError, and the pins made
    for the ids before it stay in the simulator; the ids after it are never
    looked at. *)
Theorem pin_fixed_partial s deform_id mesh verts1 bad verts2 :
  deformables s !! deform_id = Some mesh →
  Forall (λ v, v < length mesh) verts1 →
  length mesh ≤ bad →
  pin_fixed deform_id (verts1 ++ bad :: verts2) s
  = (Raise IndexError, (pin_fixed deform_id verts1 s).2) ∧
  (pin_fixed deform_id verts1 s).1 = Ok () ∧
  next_body (pin_fixed deform_id verts1 s).2 = next_body s + length verts1.
Proof.
  intros Hd Hall Hbad.
  assert (Hrun1 : pin_fixed deform_id verts1 s
            = (Ok (), foldl (λ t v, pin_one deform_id (mesh !!! v) v t) s verts1)).
  { unfold pin_fixed. unfold mbind at 1. unfold M_bind at 1.
    unfold get_mesh_data. rewrite Hd. by apply pin_fixed_loop_ok. }
  rewrite Hrun1. cbn [fst snd]. split; [| split; [done |]].
  - unfold pin_fixed. unfold mbind at 1. unfold M_bind at 1.
    unfold get_mesh_data. rewrite Hd. rewrite for_each_app.
    rewrite (pin_fixed_loop_ok deform_id mesh verts1 s Hd Hall).
    cbn [for_each]. unfold mbind at 1. unfold M_bind at 1.
    rewrite pin_fixed_step.
    by rewrite (proj2 (lookup_ge_None mesh bad) Hbad).
  - by destruct (pin_fold_fields deform_id mesh verts1 s Hd Hall) as (_ & Hnb & _).
Qed.

Lemma pin_fixed_partial_witness :
  pin_fixed 5 ([1] ++ 2 :: [0]) sim_one_cloth
  = (Raise IndexError, (pin_fixed 5 [1] sim_one_cloth).2).
Proof.
  apply (pin_fixed_partial sim_one_cloth 5 [P3 0 0 0; P3 1 2 3] [1] 2 [0]).
  - reflexivity.
  - repeat constructor.
  - cbn. lia.
Defined.
